(** * hungbiu::concurrent_forward_list: a sequential model of the list

    The development follows [concurrent_forward_list.hpp].  Nodes live in a
    store addressed by natural numbers; a [std::shared_ptr<list_node>] is an
    optional address.  Every operation is a computation over the store, the
    head pointer and a log of mutex events and head exchanges, and ends in
    one of four ways: it returns, it lets [std::runtime_error] escape, it
    leaves the behaviour the language defines (it goes through an empty
    pointer, or locks a mutex it owns), or one of its compare-and-swap
    loops does not exit within the number of attempts it was given.

    Scope of the model.
    - One thread runs an operation to completion, so a mutex is free when
      it is requested unless the operation itself owns it, and a
      compare-and-swap on the head compares with the value that was just
      loaded.  [atomic_compare_exchange_weak] may still fail: the state
      carries the failures to come.
    - Reclamation by reference count is not modelled: a node stays in the
      store after its last owner has dropped it, and addresses are never
      reused. *)

From Stdlib Require Import ZArith.
From stdpp Require Import base option list.

(** Node identities. *)
Abbreviation addr := nat.

(** [std::shared_ptr<list_node>]; the empty pointer is [None]. *)
Abbreviation pointer := (option nat).

(** [operator bool] of a shared pointer. *)
Definition nonnull (p : pointer) : bool :=
  match p with
  | Some _ => true
  | None => false
  end.

(** What an operation does to the mutexes and to the head, in program
    order: [std::mutex] traffic on the node at [a], and a compare-and-swap
    that replaced the head [expected] by [desired]. *)
Inductive event :=
| Acquire (a : addr)
| Release (a : addr)
| Exchange (expected desired : pointer).

(** The number of failures before the first compare-and-swap that
    succeeds. *)
Fixpoint spurious_run (o : list bool) : nat :=
  match o with
  | true :: o' => S (spurious_run o')
  | _ => 0
  end.

(** What is left of the failures once a compare-and-swap has succeeded. *)
Definition settle (o : list bool) : list bool :=
  drop (S (spurious_run o)) o.

(** The longest run of failures in a row. *)
Fixpoint longest_run (o : list bool) : nat :=
  match o with
  | [] => 0
  | _ :: o' => spurious_run o `max` longest_run o'
  end.

(** How a call can leave the behaviour the language defines: through a
    pointer that owns no node, or by locking a [std::mutex] that the thread
    already owns; the mutex is not recursive, and such a call does not come
    back. *)
Inductive fault :=
| null_dereference
| dangling_reference
| recursive_lock.

Section Model.
Context {T : Type}.

(** ** Nodes *)

(** [struct list_node]; what is done to [m_mtx] is entered in the log of
    the state, and [lock] is told which mutexes its caller owns. *)
Record list_node := mk_node {
  m_val : T;
  m_deleted : bool;
  m_next : pointer
}.

Definition with_val (v : T) (n : list_node) : list_node :=
  mk_node v (m_deleted n) (m_next n).
Definition with_deleted (b : bool) (n : list_node) : list_node :=
  mk_node (m_val n) b (m_next n).
Definition with_next (p : pointer) (n : list_node) : list_node :=
  mk_node (m_val n) (m_deleted n) p.

(** ** Program state *)

(** [spurious] tells, for each coming [atomic_compare_exchange_weak] on
    the head whose comparison succeeds, whether it fails all the same; past
    the end of the list none does. *)
Record state := mk_state {
  heap : list list_node;
  m_head : pointer;
  trace : list event;
  spurious : list bool
}.

Definition set_heap (f : list list_node → list list_node) (s : state) : state :=
  mk_state (f (heap s)) (m_head s) (trace s) (spurious s).
Definition set_head (p : pointer) (s : state) : state :=
  mk_state (heap s) p (trace s) (spurious s).
Definition log (e : event) (s : state) : state :=
  mk_state (heap s) (m_head s) (trace s ++ [e]) (spurious s).
Definition set_spurious (o : list bool) (s : state) : state :=
  mk_state (heap s) (m_head s) (trace s) o.

(** A default-constructed list, with the failures [o] ahead of it. *)
Definition empty_list (o : list bool) : state := mk_state [] None [] o.

(** ** Outcomes and the monad of operations *)

(** [Returns x s]: the call returns [x] and leaves [s].
    [Throws s]: [std::runtime_error{"node is already marked as deleted!"}]
    leaves the call, and the call leaves [s].
    [Undefined f]: the call goes through a pointer that owns no node, or
    locks a mutex it owns.
    [Spins]: the call is still in a compare-and-swap loop or a traversal
    after the attempts it was given. *)
Inductive outcome (A : Type) :=
| Returns (x : A) (s : state)
| Throws (s : state)
| Undefined (f : fault)
| Spins.
#[local] Arguments Returns {A} x s.
#[local] Arguments Throws {A} s.
#[local] Arguments Undefined {A} f.
#[local] Arguments Spins {A}.

Definition M (A : Type) : Type := state → outcome A.

Definition ret {A} (x : A) : M A := λ s, Returns x s.

Definition bind {A B} (m : M A) (k : A → M B) : M B :=
  λ s, match m s with
       | Returns x s' => k x s'
       | Throws s' => Throws s'
       | Undefined f => Undefined f
       | Spins => Spins
       end.

Definition throw {A} : M A := λ s, Throws s.
Definition spin {A} : M A := λ _, Spins.
Definition modify (f : state → state) : M unit := λ s, Returns tt (f s).

(** The state an operation leaves behind, when it leaves one. *)
Definition final {A} (o : outcome A) : option state :=
  match o with
  | Returns _ s => Some s
  | Throws s => Some s
  | Undefined _ => None
  | Spins => None
  end.

Local Notation "'do' x <- m ; k" := (bind m (λ x, k))
  (at level 10, x binder, m at level 100, k at level 200,
   format "'[v' 'do'  x  <-  m ; '/' k ']'").

(** [p->...]: the address and the node behind a pointer. *)
Definition deref (p : pointer) : M (addr * list_node) :=
  λ s, match p with
       | None => Undefined null_dereference
       | Some a =>
           match heap s !! a with
           | Some n => Returns (a, n) s
           | None => Undefined dangling_reference
           end
       end.

(** [std::make_shared<node_type>(...)] *)
Definition make_shared (n : list_node) : M pointer :=
  λ s, Returns (Some (length (heap s))) (set_heap (λ h, h ++ [n]) s).

Definition get_next (p : pointer) : M pointer :=
  do r <- deref p; ret (m_next (snd r)).

Definition put_next (p q : pointer) : M unit :=
  do r <- deref p; modify (set_heap (alter (with_next q) (fst r))).

(** Run [scope], then [cleanup], whether [scope] returns or throws: what
    leaving a C++ block does to the objects declared in it. *)
Definition unwinding {A} (scope : M A) (cleanup : state → state) : M A :=
  λ s, match scope s with
       | Returns x s' => Returns x (cleanup s')
       | Throws s' => Throws (cleanup s')
       | Undefined f => Undefined f
       | Spins => Spins
       end.

(** A scope in which the [unique_lock] returned by [p->lock()] is alive:
    the mutex is released when the scope is left.  [owned] are the pointers
    whose locks are alive where [p->lock()] is called; the call waits for
    the mutex, and a mutex that the caller owns is never released to it. *)
Definition lock (owned : list pointer) (p : pointer) {A} (scope : M A)
  : M A :=
  do r <- deref p;
  if decide (p ∈ owned) then λ _, Undefined recursive_lock
  else
    do _ <- modify (log (Acquire (fst r)));
    unwinding scope (log (Release (fst r))).

(** [list_node::is_deleted] *)
Definition is_deleted (p : pointer) : M bool :=
  do r <- deref p; ret (m_deleted (snd r)).

(** [list_node::mark_as_deleted]:
    [m_deleted.compare_exchange_strong(b = false, true)]. *)
Definition mark_as_deleted (p : pointer) : M bool :=
  do r <- deref p;
  if m_deleted (snd r) then ret false
  else do _ <- modify (set_heap (alter (with_deleted true) (fst r))); ret true.

(** ** The head pointer *)

Definition atomic_load_head : M pointer := λ s, Returns (m_head s) s.

(** [atomic_compare_exchange_weak(&m_head, &expected, desired)]: the result
    is paired with the value left in [expected].  An exchange that takes
    place is entered in the log. *)
Definition atomic_compare_exchange_head (expected desired : pointer)
  : M (bool * pointer) :=
  λ s, if decide (m_head s = expected)
       then
         let swapped := log (Exchange expected desired) (set_head desired s) in
         match spurious s with
         | true :: o => Returns (false, expected) (set_spurious o s)
         | false :: o => Returns (true, expected) (set_spurious o swapped)
         | [] => Returns (true, expected) swapped
         end
       else Returns (false, m_head s) s.

(** ** Iterators *)

Record iterator := mk_iterator { m_node_ptr : pointer }.

Definition begin : M iterator :=
  do p <- atomic_load_head; ret (mk_iterator p).

Definition end_ : iterator := mk_iterator None.

(** [operator==] *)
Definition iterator_eqb (lhs rhs : iterator) : bool :=
  bool_decide (m_node_ptr lhs = m_node_ptr rhs).

(** [is_valid] and [operator bool]:
    [m_node_ptr && !m_node_ptr->is_deleted()]. *)
Definition is_valid (it : iterator) : M bool :=
  match m_node_ptr it with
  | None => ret false
  | Some _ => do d <- is_deleted (m_node_ptr it); ret (negb d)
  end.

(** [operator*], read. *)
Definition star (it : iterator) : M T :=
  do r <- deref (m_node_ptr it); ret (m_val (snd r)).

(** [operator*], used to assign through the reference it returns. *)
Definition assign (it : iterator) (v : T) : M unit :=
  do r <- deref (m_node_ptr it);
  modify (set_heap (alter (with_val v) (fst r))).

(** [operator++] *)
Definition incr (it : iterator) : M iterator :=
  do q <- get_next (m_node_ptr it); ret (mk_iterator q).

(** ** List operations *)

(** [while (!atomic_compare_exchange_weak(&m_head, &tmp, clr)) ;] *)
Fixpoint clear_loop (fuel : nat) (tmp clr : pointer) : M unit :=
  match fuel with
  | 0 => spin
  | S fuel' =>
      do r <- atomic_compare_exchange_head tmp clr;
      if fst r then ret tt else clear_loop fuel' (snd r) clr
  end.

Definition clear (fuel : nat) : M unit :=
  do tmp <- atomic_load_head;
  clear_loop fuel tmp None.

(** [while (!atomic_compare_exchange_weak(&m_head, &new_node->m_next,
    new_node)) ;] where the expected value lives in the new node. *)
Fixpoint push_front_loop (fuel : nat) (new_node : pointer) : M unit :=
  match fuel with
  | 0 => spin
  | S fuel' =>
      do expected <- get_next new_node;
      do r <- atomic_compare_exchange_head expected new_node;
      if fst r then ret tt
      else do _ <- put_next new_node (snd r); push_front_loop fuel' new_node
  end.

Definition push_front (fuel : nat) (val : T) : M unit :=
  do h <- atomic_load_head;
  do new_node <- make_shared (mk_node val false h);
  push_front_loop fuel new_node.

(** [while (old_head && !atomic_compare_exchange_weak(&m_head, &old_head,
    old_head->m_next)) ;] returning the final [old_head]. *)
Fixpoint pop_front_loop (fuel : nat) (old_head : pointer) : M pointer :=
  match fuel with
  | 0 => spin
  | S fuel' =>
      match old_head with
      | None => ret old_head
      | Some _ =>
          do desired <- get_next old_head;
          do r <- atomic_compare_exchange_head old_head desired;
          if fst r then ret (snd r) else pop_front_loop fuel' (snd r)
      end
  end.

Definition pop_front (fuel : nat) : M unit :=
  do old_head <- atomic_load_head;
  do old_head <- pop_front_loop fuel old_head;
  lock [] old_head (
    do ok <- mark_as_deleted old_head;
    if negb ok then throw else ret tt).

Definition insert_after (pos : iterator) (val : T) : M bool :=
  do new_node <- make_shared (mk_node val false None);
  let p := m_node_ptr pos in
  lock [] p (
    do d <- is_deleted p;
    if d then ret false
    else
      do q <- get_next p;
      do _ <- put_next new_node q;
      do _ <- put_next p new_node;
      ret true).

Definition erase_after (pos : iterator) : M bool :=
  let pre := m_node_ptr pos in
  match pre with
  | None => ret false
  | Some _ =>
      do q <- get_next pre;
      if negb (nonnull q) then ret false
      else
        lock [] pre (
          do d <- is_deleted pre;
          do q <- get_next pre;
          if d || negb (nonnull q) then ret false
          else
            let del := q in
            do _ <- lock [pre] del (
              do q' <- get_next del;
              do _ <- put_next pre q';
              do ok <- mark_as_deleted del;
              if negb ok then throw else ret tt);
            ret true)
  end.

(** [empty] *)
Definition empty : M bool :=
  do h <- atomic_load_head; ret (negb (nonnull h)).

(** ** Every public operation, with its result dropped *)

Inductive operation :=
| op_push_front (fuel : nat) (val : T)
| op_pop_front (fuel : nat)
| op_clear (fuel : nat)
| op_insert_after (pos : iterator) (val : T)
| op_erase_after (pos : iterator)
| op_empty
| op_begin
| op_is_valid (it : iterator)
| op_star (it : iterator)
| op_assign (it : iterator) (val : T)
| op_incr (it : iterator).

Definition forget {A} (m : M A) : M unit := do _ <- m; ret tt.

(** The position an operation is given, if it takes one. *)
Definition position (o : operation) : pointer :=
  match o with
  | op_insert_after pos _ | op_erase_after pos => m_node_ptr pos
  | op_is_valid it | op_star it | op_assign it _ | op_incr it => m_node_ptr it
  | _ => None
  end.

Definition run (o : operation) : M unit :=
  match o with
  | op_push_front fuel val => push_front fuel val
  | op_pop_front fuel => pop_front fuel
  | op_clear fuel => clear fuel
  | op_insert_after pos val => forget (insert_after pos val)
  | op_erase_after pos => forget (erase_after pos)
  | op_empty => forget empty
  | op_begin => forget begin
  | op_is_valid it => forget (is_valid it)
  | op_star it => forget (star it)
  | op_assign it val => assign it val
  | op_incr it => forget (incr it)
  end.

(** ** The shape of the store *)

(** [lseg h p l q]: following [m_next] from [p] visits exactly the
    addresses [l], in this order, and arrives at [q]. *)
Fixpoint lseg (h : list list_node) (p : pointer) (l : list addr)
    (q : pointer) : Prop :=
  match l with
  | [] => p = q
  | a :: l' => p = Some a ∧ ∃ n, h !! a = Some n ∧ lseg h (m_next n) l' q
  end.

(** The nodes from [p] to the end of the list. *)
Definition chain (h : list list_node) (p : pointer) (l : list addr) : Prop :=
  lseg h p l None.

(** The same walk as a function: [None] when it meets a dangling pointer
    or does not reach the end within [fuel] nodes. *)
Fixpoint walk (fuel : nat) (h : list list_node) (p : pointer)
    : option (list addr) :=
  match p with
  | None => Some []
  | Some a =>
      match fuel with
      | 0 => None
      | S fuel' =>
          match h !! a with
          | Some n => cons a <$> walk fuel' h (m_next n)
          | None => None
          end
      end
  end.

(** A shared pointer is empty or owns a node of the store. *)
Definition allocated (h : list list_node) (p : pointer) : Prop :=
  match p with
  | None => True
  | Some a => a < length h
  end.

(** No pointer of the list dangles. *)
Definition closed (s : state) : Prop :=
  allocated (heap s) (m_head s) ∧
  Forall (λ n, allocated (heap s) (m_next n)) (heap s).

#[global] Instance allocated_dec h p : Decision (allocated h p).
Proof. destruct p; simpl; apply _. Defined.

#[global] Instance closed_dec s : Decision (closed s).
Proof. unfold closed. apply _. Defined.

#[global] Instance lseg_dec h p l q : Decision (lseg h p l q).
Proof.
  revert p. induction l as [|a l IH]; intros p; simpl; [apply _|].
  destruct (decide (p = Some a)) as [Hp|Hp]; [|right; tauto].
  destruct (h !! a) as [n|]; [|right; intros (_ & n & Hn & _); discriminate].
  destruct (IH (m_next n)) as [H|H]; [left; eauto|right].
  intros (_ & n' & Hn & H'). by injection Hn as <-.
Defined.

(** The events an outcome added to those of the state it started from. *)
Definition events {A} (s : state) (o : outcome A) : option (list event) :=
  (λ s', drop (length (trace s)) (trace s')) <$> final o.

(** An operation takes no node lock. *)
Definition lock_free {A} (m : M A) : Prop :=
  ∀ s evs, events s (m s) = Some evs → ∀ a, Acquire a ∉ evs.

(** The node at [a] has been logically removed. *)
Definition tombstoned (a : addr) (s : state) : Prop :=
  ∃ n, heap s !! a = Some n ∧ m_deleted n = true.

(** [I] survives [m], whether [m] returns or throws. *)
Definition invariant (I : state → Prop) {A} (m : M A) : Prop :=
  ∀ s s', I s → final (m s) = Some s' → I s'.

#[global] Instance tombstoned_dec a s : Decision (tombstoned a s).
Proof.
  unfold tombstoned. destruct (heap s !! a) as [n|];
    [|right; intros (n & Hn & _); discriminate].
  destruct (decide (m_deleted n = true)) as [H|H]; [left; eauto|right].
  intros (n' & Hn & H'). by injection Hn as <-.
Defined.

(** No node of the store is marked. *)
Definition live (s : state) : Prop :=
  Forall (λ n, m_deleted n = false) (heap s).

(** The values stored at the addresses [l]. *)
Definition values (h : list list_node) (l : list addr) : list T :=
  omap (λ a, m_val <$> h !! a) l.

(** ** The callers of the test program *)

(** [for (i : vals) cflist.push_front(i);] *)
Fixpoint push_all (fuel : nat) (vals : list T) : M unit :=
  match vals with
  | [] => ret tt
  | v :: vals' => do _ <- push_front fuel v; push_all fuel vals'
  end.

(** [std::accumulate(first, last, init)], with [operator+] as [add]. *)
Fixpoint accumulate (add : T → T → T) (fuel : nat)
    (first last : iterator) (init : T) : M T :=
  match fuel with
  | 0 => spin
  | S fuel' =>
      if iterator_eqb first last then ret init
      else
        do v <- star first;
        do first' <- incr first;
        accumulate add fuel' first' last (add init v)
  end.

(** [for (it = first; it != last; ++it) assert(it.is_valid());]: whether
    every assertion holds. *)
Fixpoint all_valid (fuel : nat) (first last : iterator) : M bool :=
  match fuel with
  | 0 => spin
  | S fuel' =>
      if iterator_eqb first last then ret true
      else
        do ok <- is_valid first;
        if ok then do first' <- incr first; all_valid fuel' first' last
        else ret false
  end.

(** [list_size]: [for (i = cbegin(); i != cend(); ++i, ++sz) ;] *)
Fixpoint list_size_loop (fuel : nat) (i last : iterator) (sz : nat) : M nat :=
  match fuel with
  | 0 => spin
  | S fuel' =>
      if iterator_eqb i last then ret sz
      else do i' <- incr i; list_size_loop fuel' i' last (S sz)
  end.

Definition list_size (fuel : nat) : M nat :=
  do i <- begin; list_size_loop fuel i end_ 0.

(** ** More of the iterator and of the test program *)

(** [operator++(int)]: the iterator as it was, and the iterator after the
    step. *)
Definition post_incr (it : iterator) : M (iterator * iterator) :=
  do it' <- incr it; ret (it, it').

(** [for (...; ++i, ++beg) if (!cflist.insert_after(beg, i)) std::terminate();]
    over the values [vals]: the result is false where [main] terminates,
    and comes with the position reached. *)
Fixpoint insert_each (beg : iterator) (vals : list T) : M (bool * iterator) :=
  match vals with
  | [] => ret (true, beg)
  | v :: vals' =>
      do ok <- insert_after beg v;
      if ok then do beg' <- incr beg; insert_each beg' vals'
      else ret (false, beg)
  end.

(** [for (...) if (!cflist.erase_after(beg)) std::terminate();], [n] times
    round the loop: false where [main] terminates. *)
Fixpoint erase_each (beg : iterator) (n : nat) : M bool :=
  match n with
  | 0 => ret true
  | S n' =>
      do ok <- erase_after beg;
      if ok then erase_each beg n' else ret false
  end.

(** The loop of [main] that compares [*beg++] with the value expected,
    [n] times round: the values that are read, and the position reached. *)
Fixpoint read_each (beg : iterator) (n : nat) : M (list T * iterator) :=
  match n with
  | 0 => ret ([], beg)
  | S n' =>
      do r <- post_incr beg;
      do v <- star (fst r);
      do rest <- read_each (snd r) n';
      ret (v :: fst rest, snd rest)
  end.

(** ** The states of a single thread *)

(** The node at [a] is in the store and is not marked. *)
Definition unmarked (h : list list_node) (a : addr) : Prop :=
  ∃ n, h !! a = Some n ∧ m_deleted n = false.

(** [a] is an unmarked node and [b] is its successor. *)
Definition live_link (h : list list_node) (a b : addr) : Prop :=
  ∃ n, h !! a = Some n ∧ m_deleted n = false ∧ m_next n = Some b.

(** What the operations keep true of the marks: no pointer dangles, the
    list is a chain that ends, the head and the successor of an unmarked
    node are unmarked, and an unmarked node has at most one unmarked
    predecessor, and none when it is the head. *)
Record sound (s : state) : Prop := mk_sound {
  sound_closed : closed s;
  sound_chain : ∃ l, chain (heap s) (m_head s) l;
  sound_head : ∀ a, m_head s = Some a → unmarked (heap s) a;
  sound_link : ∀ a b, live_link (heap s) a b → unmarked (heap s) b;
  sound_entry : ∀ a b, live_link (heap s) a b → m_head s ≠ Some b;
  sound_share :
    ∀ a a' b, live_link (heap s) a b → live_link (heap s) a' b → a = a'
}.

(** The states one thread can get a default-constructed list into, through
    the operations and with positions that refer to nodes of the store. *)
Inductive reachable : state → Prop :=
| reachable_empty o : reachable (empty_list o)
| reachable_step s op s' :
    reachable s → allocated (heap s) (position op) →
    final (run op s) = Some s' → reachable s'.

(** Following [m_next] from any node of the store comes to the end: no
    node is reached from itself. *)
Definition acyclic (h : list list_node) : Prop :=
  ∀ a, a < length h → ∃ l, chain h (Some a) l.

(** The locks held after the events [evs], the last one acquired first,
    when [held] were held before: [None] when a lock is acquired that is
    held, when a lock is released that is not the last one acquired, or
    when the head is exchanged while a lock is held. *)
Fixpoint held_after (held : list addr) (evs : list event)
    : option (list addr) :=
  match evs with
  | [] => Some held
  | Acquire a :: evs' =>
      if decide (a ∈ held) then None else held_after (a :: held) evs'
  | Release a :: evs' =>
      match held with
      | b :: held' => if decide (a = b) then held_after held' evs' else None
      | [] => None
      end
  | Exchange _ _ :: evs' =>
      match held with
      | [] => held_after held evs'
      | _ :: _ => None
      end
  end.

End Model.

Arguments list_node : clear implicits.
Arguments state : clear implicits.
Arguments outcome : clear implicits.
Arguments M : clear implicits.
Arguments operation : clear implicits.
Arguments Returns {T A} x s.
Arguments Throws {T A} s.
Arguments Undefined {T A} f.
Arguments Spins {T A}.

(** ** The sequential part of [main] in the test program, at [T = int] *)

Module Test.

Definition Max : nat := 100.

(** The values pushed by [for (i = 1; i <= Max; ++i)]. *)
Definition pushed : list Z := Z.of_nat <$> seq 1 Max.

(** The list after the first loop of [main]. *)
Definition after_push (fuel : nat) (o : list bool) : outcome Z unit :=
  push_all fuel pushed (empty_list o).

(** [std::accumulate(cflist.cbegin(), cflist.cend(), 0)] *)
Definition sum (fuel : nat) : M Z Z :=
  bind begin (λ first, accumulate Z.add fuel first end_ 0%Z).

(** The loop of [assert(it.is_valid())]. *)
Definition check_valid (fuel : nat) : M Z bool :=
  bind begin (λ first, all_valid fuel first end_).

(** [*cflist.cbegin()] *)
Definition front : M Z Z := bind begin star.

(** The list after [push_front(1); push_front(2); push_front(3);]. *)
Definition three : state Z :=
  mk_state [mk_node 1%Z false None; mk_node 2%Z false (Some 0);
            mk_node 3%Z false (Some 1)]
           (Some 2)
           [Exchange None (Some 0); Exchange (Some 0) (Some 1);
            Exchange (Some 1) (Some 2)] [].

(** [three] after [pop_front()]: the node at 2 is detached and marked, and
    an iterator obtained earlier may still refer to it. *)
Definition three_popped : state Z :=
  mk_state [mk_node 1%Z false None; mk_node 2%Z false (Some 0);
            mk_node 3%Z true (Some 1)]
           (Some 1)
           [Exchange None (Some 0); Exchange (Some 0) (Some 1);
            Exchange (Some 1) (Some 2); Exchange (Some 2) (Some 1);
            Acquire 2; Release 2] [].

End Test.

(** * Proofs *)

(** ** Runs of spurious failures *)

Lemma spurious_run_le_longest o : spurious_run o ≤ longest_run o.
Proof. destruct o as [|b o]; simpl; lia. Qed.

Lemma longest_run_tail b o : longest_run o ≤ longest_run (b :: o).
Proof. simpl. lia. Qed.

Lemma longest_run_drop k o : longest_run (drop k o) ≤ longest_run o.
Proof.
  revert o. induction k as [|k IH]; intros [|b o]; simpl; try lia.
  specialize (IH o). lia.
Qed.

Lemma longest_run_settle o : longest_run (settle o) ≤ longest_run o.
Proof. apply longest_run_drop. Qed.

Lemma settle_failure o : settle (true :: o) = settle o.
Proof. reflexivity. Qed.

Section Proofs.
Context {T : Type}.
Implicit Types (s : state T) (h : list (list_node T)) (n : list_node T).
Implicit Types (p q : pointer) (a d : addr) (l : list addr).
Implicit Types (it pos : iterator) (tr : list event) (o : list bool).

(** ** Stepping through the monad *)

Ltac msimpl :=
  unfold log, set_heap, set_head, set_spurious;
  cbn [heap m_head trace spurious log set_heap set_head set_spurious fst snd
       m_val m_deleted m_next with_next with_deleted with_val
       m_node_ptr negb orb andb nonnull].

Lemma deref_Some s a n :
  heap s !! a = Some n → deref (Some a) s = Returns (a, n) s.
Proof. intros H. unfold deref. by rewrite H. Qed.

Lemma get_next_Some s a n :
  heap s !! a = Some n → get_next (Some a) s = Returns (m_next n) s.
Proof. intros H. unfold get_next, bind. by rewrite (deref_Some _ _ _ H). Qed.

Lemma is_deleted_Some s a n :
  heap s !! a = Some n → is_deleted (Some a) s = Returns (m_deleted n) s.
Proof. intros H. unfold is_deleted, bind. by rewrite (deref_Some _ _ _ H). Qed.

Lemma put_next_Some s a n q :
  heap s !! a = Some n →
  put_next (Some a) q s = Returns tt (set_heap (alter (with_next q) a) s).
Proof. intros H. unfold put_next, bind. by rewrite (deref_Some _ _ _ H). Qed.

(** [p->lock()] on a mutex the caller does not own, and on one it owns. *)
Lemma lock_Some {A} (owned : list pointer) s a n (scope : M T A) :
  heap s !! a = Some n → Some a ∉ owned →
  lock owned (Some a) scope s
  = unwinding scope (log (Release a)) (log (Acquire a) s).
Proof.
  intros Ha Hfree. unfold lock, bind at 1. rewrite (deref_Some _ _ _ Ha).
  by rewrite decide_False.
Qed.

Lemma lock_owned {A} (owned : list pointer) s a n (scope : M T A) :
  heap s !! a = Some n → Some a ∈ owned →
  lock owned (Some a) scope s = Undefined recursive_lock.
Proof.
  intros Ha Hown. unfold lock, bind at 1. rewrite (deref_Some _ _ _ Ha).
  by rewrite decide_True.
Qed.

Lemma with_deleted_true_id n : m_deleted n = true → with_deleted true n = n.
Proof. destruct n as [v b r]. simpl. by intros ->. Qed.

Lemma with_next_id n : with_next (m_next n) n = n.
Proof. by destruct n. Qed.

Lemma alter_fixed (f : list_node T → list_node T) h a n :
  h !! a = Some n → f n = n → alter f a h = h.
Proof.
  intros Hl Hf. apply list_eq. intros i.
  destruct (decide (a = i)) as [<-|Hne].
  - rewrite list_lookup_alter_eq, Hl. simpl. by rewrite Hf.
  - by rewrite list_lookup_alter_ne.
Qed.

Lemma alter_snoc (f : list_node T → list_node T) h n :
  alter f (length h) (h ++ [n]) = h ++ [f n].
Proof.
  rewrite alter_app_r_alt by lia.
  by replace (length h - length h) with 0 by lia.
Qed.

(** [list_node::mark_as_deleted] in closed form. *)
Lemma mark_as_deleted_Some s a n :
  heap s !! a = Some n →
  mark_as_deleted (Some a) s =
    if m_deleted n then Returns false s
    else Returns true (set_heap (alter (with_deleted true) a) s).
Proof.
  intros H. unfold mark_as_deleted, bind. rewrite (deref_Some _ _ _ H). simpl.
  by destruct (m_deleted n).
Qed.

(** ** The compare-and-swap loops *)

(** A compare-and-swap against the value the head has: it fails when the
    next entry of [spurious] says so, and succeeds otherwise. *)
Lemma compare_exchange_fails h p tr o desired :
  atomic_compare_exchange_head p desired (mk_state h p tr (true :: o))
  = Returns (false, p) (mk_state h p tr o).
Proof. unfold atomic_compare_exchange_head. simpl. by rewrite decide_True. Qed.

Lemma compare_exchange_succeeds h p tr o desired :
  spurious_run o = 0 →
  atomic_compare_exchange_head p desired (mk_state h p tr o)
  = Returns (true, p)
      (mk_state h desired (tr ++ [Exchange p desired]) (settle o)).
Proof.
  intros Ho. unfold atomic_compare_exchange_head. simpl.
  rewrite decide_True by done. by destruct o as [|[|] o].
Qed.

Lemma clear_loop_closed_form fuel h p tr o :
  clear_loop fuel p None (mk_state h p tr o) =
    if decide (spurious_run o < fuel)
    then Returns tt (mk_state h None (tr ++ [Exchange p None]) (settle o))
    else Spins.
Proof.
  revert o. induction fuel as [|fuel IH]; intros o; [done|].
  simpl. unfold bind at 1. destruct o as [|[|] o].
  - rewrite compare_exchange_succeeds by done.
    cbn [fst snd spurious_run]. by case_decide; [|lia].
  - rewrite compare_exchange_fails. simpl. rewrite IH, settle_failure.
    by repeat case_decide; try lia.
  - rewrite compare_exchange_succeeds by done.
    cbn [fst snd spurious_run]. by case_decide; [|lia].
Qed.

Lemma push_front_loop_closed_form fuel h p tr o a n :
  h !! a = Some n → m_next n = p →
  push_front_loop fuel (Some a) (mk_state h p tr o) =
    if decide (spurious_run o < fuel)
    then Returns tt (mk_state h (Some a) (tr ++ [Exchange p (Some a)])
                              (settle o))
    else Spins.
Proof.
  intros Ha Hn. revert o. induction fuel as [|fuel IH]; intros o; [done|].
  simpl. unfold bind at 1. rewrite (get_next_Some _ a n) by done.
  unfold bind at 1. rewrite Hn. destruct o as [|[|] o].
  - rewrite compare_exchange_succeeds by done.
    cbn [fst snd spurious_run]. by case_decide; [|lia].
  - rewrite compare_exchange_fails. simpl. unfold bind at 1.
    rewrite (put_next_Some _ a n) by done. msimpl.
    rewrite (alter_fixed _ _ _ n Ha) by (rewrite <- Hn; apply with_next_id).
    rewrite IH, settle_failure. by repeat case_decide; try lia.
  - rewrite compare_exchange_succeeds by done.
    cbn [fst snd spurious_run]. by case_decide; [|lia].
Qed.

Lemma pop_front_loop_closed_form fuel h tr o a n :
  h !! a = Some n →
  pop_front_loop fuel (Some a) (mk_state h (Some a) tr o) =
    if decide (spurious_run o < fuel)
    then Returns (Some a)
           (mk_state h (m_next n) (tr ++ [Exchange (Some a) (m_next n)])
                     (settle o))
    else Spins.
Proof.
  intros Ha. revert o. induction fuel as [|fuel IH]; intros o; [done|].
  simpl. unfold bind at 1. rewrite (get_next_Some _ a n) by done.
  unfold bind at 1. destruct o as [|[|] o].
  - rewrite compare_exchange_succeeds by done.
    cbn [fst snd spurious_run]. by case_decide; [|lia].
  - rewrite compare_exchange_fails. simpl.
    rewrite IH, settle_failure. by repeat case_decide; try lia.
  - rewrite compare_exchange_succeeds by done.
    cbn [fst snd spurious_run]. by case_decide; [|lia].
Qed.

(** ** The list operations in closed form *)

Lemma clear_closed_form fuel s :
  clear fuel s =
    if decide (spurious_run (spurious s) < fuel)
    then Returns tt (mk_state (heap s) None
                              (trace s ++ [Exchange (m_head s) None])
                              (settle (spurious s)))
    else Spins.
Proof.
  destruct s as [h p tr o]. unfold clear, bind, atomic_load_head.
  apply clear_loop_closed_form.
Qed.

Lemma empty_closed_form s : empty s = Returns (negb (nonnull (m_head s))) s.
Proof. reflexivity. Qed.

Lemma push_front_closed_form fuel (val : T) s :
  push_front fuel val s =
    if decide (spurious_run (spurious s) < fuel)
    then Returns tt (mk_state (heap s ++ [mk_node val false (m_head s)])
                              (Some (length (heap s)))
                              (trace s ++ [Exchange (m_head s)
                                             (Some (length (heap s)))])
                              (settle (spurious s)))
    else Spins.
Proof.
  destruct s as [h p tr o].
  unfold push_front, bind, atomic_load_head, make_shared. msimpl.
  by apply (push_front_loop_closed_form _ _ _ _ _ _ (mk_node val false p));
    [apply list_lookup_middle|].
Qed.

Lemma pop_front_no_fuel s : pop_front 0 s = Spins.
Proof. reflexivity. Qed.

Lemma pop_front_empty fuel h tr o :
  pop_front (S fuel) (mk_state h None tr o) = @Undefined T unit null_dereference.
Proof. reflexivity. Qed.

Lemma pop_front_closed_form fuel s a n :
  m_head s = Some a → heap s !! a = Some n →
  pop_front fuel s =
    if decide (spurious_run (spurious s) < fuel)
    then
      let tr :=
        trace s ++ [Exchange (Some a) (m_next n); Acquire a; Release a] in
      if m_deleted n
      then Throws (mk_state (heap s) (m_next n) tr (settle (spurious s)))
      else Returns tt (mk_state (alter (with_deleted true) a (heap s))
                                (m_next n) tr (settle (spurious s)))
    else Spins.
Proof.
  destruct s as [h p tr o]. simpl. intros -> Ha.
  unfold pop_front, bind at 1, atomic_load_head. msimpl. unfold bind at 1.
  rewrite (pop_front_loop_closed_form _ _ _ _ _ n Ha).
  case_decide; [|done].
  rewrite (lock_Some _ _ a n) by (done || apply not_elem_of_nil).
  unfold unwinding, mark_as_deleted, modify, bind, deref, ret, throw.
  msimpl. repeat (rewrite Ha; msimpl).
  destruct (m_deleted n); msimpl; by rewrite <- !app_assoc.
Qed.

Lemma insert_after_closed_form pos (val : T) s a n :
  m_node_ptr pos = Some a → heap s !! a = Some n →
  insert_after pos val s =
    let tr := trace s ++ [Acquire a; Release a] in
    if m_deleted n
    then Returns false
           (mk_state (heap s ++ [mk_node val false None]) (m_head s) tr
                     (spurious s))
    else Returns true
           (mk_state (alter (with_next (Some (length (heap s)))) a (heap s)
                        ++ [mk_node val false (m_next n)])
                     (m_head s) tr (spurious s)).
Proof.
  intros Hp Ha. pose proof (lookup_lt_Some _ _ _ Ha) as Hlt.
  unfold insert_after, bind at 1, make_shared. rewrite Hp.
  rewrite (lock_Some _ _ a n)
    by (by apply lookup_app_l_Some || apply not_elem_of_nil).
  unfold unwinding, is_deleted, get_next, put_next, modify, bind, deref, ret.
  msimpl.
  repeat (rewrite (lookup_app_l_Some _ _ _ _ Ha); msimpl).
  destruct (m_deleted n) eqn:Hd; msimpl.
  - by rewrite <- app_assoc.
  - repeat (rewrite (lookup_app_l_Some _ _ _ _ Ha); msimpl).
    rewrite list_lookup_middle by done. msimpl.
    rewrite alter_snoc.
    repeat (rewrite (lookup_app_l_Some _ _ _ _ Ha); msimpl).
    by rewrite alter_app_l, <- app_assoc.
Qed.

Lemma insert_after_end pos (val : T) s :
  m_node_ptr pos = None → insert_after pos val s = Undefined null_dereference.
Proof.
  intros Hp. unfold insert_after, bind, make_shared, lock, deref.
  by rewrite Hp.
Qed.

Lemma erase_after_end pos s :
  m_node_ptr pos = None → erase_after pos s = Returns false s.
Proof. intros H. unfold erase_after. by rewrite H. Qed.

Lemma erase_after_last pos s a n :
  m_node_ptr pos = Some a → heap s !! a = Some n → m_next n = None →
  erase_after pos s = Returns false s.
Proof.
  intros Hp Ha Hn. unfold erase_after, bind. rewrite Hp.
  by rewrite (get_next_Some _ _ _ Ha), Hn.
Qed.

Lemma lookup_relinked h a n d nd q :
  h !! a = Some n → h !! d = Some nd →
  ∃ nd', alter (with_next q) a h !! d = Some nd' ∧
         m_deleted nd' = m_deleted nd ∧ m_val nd' = m_val nd.
Proof.
  intros Ha Hd. destruct (decide (a = d)) as [<-|Hne].
  - rewrite list_lookup_alter_eq, Ha. simplify_eq. by eexists.
  - rewrite list_lookup_alter_ne by done. by eexists.
Qed.

Lemma erase_after_closed_form pos s a n d nd :
  m_node_ptr pos = Some a → heap s !! a = Some n →
  m_next n = Some d → heap s !! d = Some nd →
  erase_after pos s =
    if m_deleted n
    then Returns false
           (mk_state (heap s) (m_head s) (trace s ++ [Acquire a; Release a])
                     (spurious s))
    else if decide (d = a) then Undefined recursive_lock
    else
      let relinked := alter (with_next (m_next nd)) a (heap s) in
      let tr := trace s ++ [Acquire a; Acquire d; Release d; Release a] in
      if m_deleted nd
      then Throws (mk_state relinked (m_head s) tr (spurious s))
      else Returns true
             (mk_state (alter (with_deleted true) d relinked) (m_head s) tr
                       (spurious s)).
Proof.
  intros Hp Ha Hn Hd.
  unfold erase_after. rewrite Hp. unfold bind at 1.
  rewrite (get_next_Some _ _ _ Ha), Hn. cbn [nonnull negb].
  rewrite (lock_Some _ _ a n) by (done || apply not_elem_of_nil).
  unfold unwinding, bind at 1. rewrite (is_deleted_Some _ a n) by done.
  unfold bind at 1. rewrite (get_next_Some _ a n), Hn by done.
  destruct (m_deleted n) eqn:Hdn; msimpl.
  { unfold ret. msimpl. by rewrite <- app_assoc. }
  unfold bind at 1. case_decide as Hda.
  { subst d. rewrite (lock_owned _ _ a n); [done | done | by left]. }
  rewrite (lock_Some _ _ d nd);
    [|done|by intros [= ->]%list_elem_of_singleton].
  assert (a ≠ d) as Hne by congruence.
  unfold unwinding, mark_as_deleted, get_next, put_next, modify, bind, deref,
    ret, throw.
  msimpl. repeat (rewrite Hd; msimpl). rewrite Ha. msimpl.
  rewrite list_lookup_alter_ne, Hd by done. msimpl.
  destruct (m_deleted nd); msimpl; by rewrite <- !app_assoc.
Qed.

(** ** Segments and chains *)

Lemma lseg_app h p l1 l2 r :
  lseg h p (l1 ++ l2) r ↔ ∃ q, lseg h p l1 q ∧ lseg h q l2 r.
Proof.
  revert p. induction l1 as [|a l1 IH]; intros p; simpl.
  - split; [eauto | by intros (q & -> & H)].
  - split.
    + intros (-> & n & Ha & H). apply IH in H as (q & H1 & H2). eauto 6.
    + intros (q & (-> & n & Ha & H1) & H2). split; [done|].
      exists n. split; [done|]. apply IH. eauto.
Qed.

(** A segment only reads the successor fields of its own nodes. *)
Lemma lseg_ext h h' p l q :
  (∀ a, a ∈ l → m_next <$> h' !! a = m_next <$> h !! a) →
  lseg h p l q → lseg h' p l q.
Proof.
  revert p. induction l as [|a l IH]; intros p Hagree; simpl; [done|].
  intros (-> & n & Ha & H). split; [done|].
  pose proof (Hagree a ltac:(left)) as Hn. rewrite Ha in Hn. simpl in Hn.
  destruct (h' !! a) as [n'|] eqn:Ha'; [|done]. simplify_eq/=.
  exists n'. split; [done|]. rewrite Hn. apply IH; [|done].
  intros b Hb. apply Hagree. by right.
Qed.

Lemma lseg_allocated h p l q a : lseg h p l q → a ∈ l → a < length h.
Proof.
  revert p. induction l as [|b l IH]; intros p; simpl.
  - intros _ Hin. by apply elem_of_nil in Hin.
  - intros (-> & n & Hb & H) [->|Hin]%elem_of_cons.
    + by eapply lookup_lt_Some.
    + eauto.
Qed.

Lemma chain_functional h p l1 l2 : chain h p l1 → chain h p l2 → l1 = l2.
Proof.
  unfold chain. revert p l2.
  induction l1 as [|a l1 IH]; intros p [|b l2]; simpl; try done.
  - by intros -> [? _].
  - by intros [-> _] ?.
  - intros (-> & n & Ha & H1) (Hb & n' & Hb' & H2). simplify_eq.
    f_equal. eauto.
Qed.

(** A chain ends, so it cannot come back to one of its own nodes. *)
Lemma chain_NoDup h p l : chain h p l → NoDup l.
Proof.
  unfold chain. revert p. induction l as [|a l IH]; intros p; simpl.
  - intros _. constructor.
  - intros (-> & n & Ha & H). constructor; [|eauto].
    intros (l1 & l2 & ->)%list_elem_of_split.
    pose proof H as H'. apply lseg_app in H' as (q & _ & Hsuf).
    pose proof Hsuf as (-> & n' & Ha' & Htl). simplify_eq.
    assert (l1 ++ a :: l2 = l2) as Heq
      by (eapply chain_functional; [exact H | exact Htl]).
    apply (f_equal length) in Heq. rewrite length_app in Heq.
    simpl in Heq. lia.
Qed.

Lemma walk_chain fuel h p l : walk fuel h p = Some l → chain h p l.
Proof.
  unfold chain. revert p l. induction fuel as [|fuel IH]; intros [a|] l; simpl;
    try done; try by intros [= <-].
  destruct (h !! a) as [n|] eqn:Ha; [|done].
  destruct (walk fuel h (m_next n)) as [l'|] eqn:Hw; simpl; [|done].
  intros [= <-]. simpl. eauto.
Qed.

Lemma chain_walk fuel h p l :
  chain h p l → length l ≤ fuel → walk fuel h p = Some l.
Proof.
  unfold chain. revert p fuel. induction l as [|a l IH]; intros p fuel; simpl.
  - intros -> _. by destruct fuel.
  - intros (-> & n & Ha & H) Hlen. destruct fuel as [|fuel]; [lia|].
    simpl. rewrite Ha. rewrite (IH _ fuel H) by lia. done.
Qed.

Lemma chain_push_front h p l (val : T) :
  chain h p l →
  chain (h ++ [mk_node val false p]) (Some (length h)) (length h :: l).
Proof.
  intros H. unfold chain. simpl. split; [done|].
  eexists. split; [by apply list_lookup_middle|]. simpl.
  eapply lseg_ext; [|exact H]. intros a Ha.
  by rewrite lookup_app_l by (eapply lseg_allocated; eauto).
Qed.

Lemma chain_pop_front h a n l :
  h !! a = Some n → chain h (Some a) (a :: l) →
  chain (alter (with_deleted true) a h) (m_next n) l.
Proof.
  intros Ha H. pose proof (chain_NoDup _ _ _ H) as [Hnin _]%NoDup_cons.
  destruct H as (_ & n' & Ha' & H). simplify_eq.
  eapply lseg_ext; [|exact H]. intros b Hb.
  rewrite list_lookup_alter_ne; [done|]. by intros ->.
Qed.

Lemma chain_insert_after h p l1 a n l2 (val : T) :
  h !! a = Some n → chain h p (l1 ++ a :: l2) →
  chain (alter (with_next (Some (length h))) a h
           ++ [mk_node val false (m_next n)])
        p (l1 ++ a :: length h :: l2).
Proof.
  intros Ha H. pose proof (chain_NoDup _ _ _ H) as Hnd.
  apply NoDup_app in Hnd as (_ & Hl1 & [Hl2 _]%NoDup_cons).
  pose proof (lookup_lt_Some _ _ _ Ha) as Hlt.
  assert (∀ b, b ∈ l1 ++ a :: l2 → b < length h) as Hall
    by (intros b; by eapply lseg_allocated).
  unfold chain in *. apply lseg_app in H as (q & H1 & -> & n' & Ha' & H2).
  simplify_eq. apply lseg_app. exists (Some a). split.
  - eapply lseg_ext; [|exact H1]. intros b Hb.
    rewrite lookup_app_l
      by (rewrite length_alter; apply Hall, elem_of_app; by left).
    rewrite list_lookup_alter_ne; [done|].
    intros ->. eapply Hl1; [done|]. by left.
  - simpl. split; [done|]. eexists. split.
    { rewrite lookup_app_l by (by rewrite length_alter).
      by rewrite list_lookup_alter_eq, Ha. }
    simpl. split; [done|]. eexists. split.
    { apply list_lookup_middle. by rewrite length_alter. }
    simpl. eapply lseg_ext; [|exact H2]. intros b Hb.
    rewrite lookup_app_l
      by (rewrite length_alter; apply Hall, elem_of_app; right; by right).
    rewrite list_lookup_alter_ne; [done|]. by intros ->.
Qed.

Lemma chain_erase_after h p l1 a d nd l2 :
  h !! d = Some nd → chain h p (l1 ++ a :: d :: l2) →
  chain (alter (with_next (m_next nd)) a h) p (l1 ++ a :: l2) ∧
  chain (alter (with_deleted true) d (alter (with_next (m_next nd)) a h))
        p (l1 ++ a :: l2).
Proof.
  intros Hd H. pose proof (chain_NoDup _ _ _ H) as Hnd.
  apply NoDup_app in Hnd as (_ & Hl1 & [Ha2 [Hd2 _]%NoDup_cons]%NoDup_cons).
  assert (a ≠ d) as Hne by (intros ->; apply Ha2; by left).
  assert (chain (alter (with_next (m_next nd)) a h) p (l1 ++ a :: l2)) as Hr.
  { unfold chain in *.
    apply lseg_app in H as (q & H1 & -> & n & Ha & _ & nd' & Hd' & H2).
    simplify_eq. apply lseg_app. exists (Some a). split.
    - eapply lseg_ext; [|exact H1]. intros b Hb.
      rewrite list_lookup_alter_ne; [done|].
      intros ->. eapply Hl1; [done|]. by left.
    - simpl. split; [done|]. eexists. split.
      { by rewrite list_lookup_alter_eq, Ha. }
      simpl. eapply lseg_ext; [|exact H2]. intros b Hb.
      rewrite list_lookup_alter_ne; [done|].
      intros ->. apply Ha2. by right. }
  split; [done|]. eapply lseg_ext; [|exact Hr]. intros b Hb.
  rewrite list_lookup_alter_ne; [done|]. intros ->.
  apply elem_of_app in Hb as [Hb|[->|Hb]%elem_of_cons]; [|done..].
  eapply Hl1; [done|]. right. by left.
Qed.

(** ** Traversals read the chain *)

Lemma iterator_eqb_end p : iterator_eqb (mk_iterator p) end_ = negb (nonnull p).
Proof. by destruct p. Qed.

Lemma accumulate_chain (add : T → T → T) fuel s p l init :
  chain (heap s) p l → length l < fuel →
  accumulate add fuel (mk_iterator p) end_ init s
  = Returns (fold_left add (values (heap s) l) init) s.
Proof.
  unfold chain. revert p fuel init.
  induction l as [|a l IH]; intros p [|fuel] init; simpl; try lia.
  - by intros -> _.
  - intros (-> & n & Ha & H) Hlen. rewrite iterator_eqb_end. simpl.
    unfold star, incr, get_next, bind, deref, ret. msimpl. rewrite !Ha. msimpl.
    by rewrite IH by (done || lia).
Qed.

Lemma all_valid_chain fuel s p l :
  chain (heap s) p l → length l < fuel →
  (∀ a n, a ∈ l → heap s !! a = Some n → m_deleted n = false) →
  all_valid fuel (mk_iterator p) end_ s = Returns true s.
Proof.
  unfold chain. revert p fuel.
  induction l as [|a l IH]; intros p [|fuel]; simpl; try lia.
  - by intros -> _ _.
  - intros (-> & n & Ha & H) Hlen Hlive. rewrite iterator_eqb_end. simpl.
    unfold is_valid, is_deleted, incr, get_next, bind, deref, ret. msimpl.
    rewrite !Ha. msimpl. rewrite (Hlive a n) by (done || by left). msimpl.
    rewrite Ha. msimpl.
    apply IH; [done | lia |]. intros b nb Hb. apply Hlive. by right.
Qed.

Lemma list_size_loop_chain fuel s p l sz :
  chain (heap s) p l → length l < fuel →
  list_size_loop fuel (mk_iterator p) end_ sz s = Returns (sz + length l) s.
Proof.
  unfold chain. revert p fuel sz.
  induction l as [|a l IH]; intros p [|fuel] sz; simpl; try lia.
  - intros -> _. simpl. unfold ret. f_equal. lia.
  - intros (-> & n & Ha & H) Hlen. rewrite iterator_eqb_end. simpl.
    unfold incr, get_next, bind, deref, ret. msimpl. rewrite !Ha. msimpl.
    rewrite IH by (done || lia). f_equal. lia.
Qed.

Lemma list_size_chain fuel s l :
  chain (heap s) (m_head s) l → length l < fuel →
  list_size fuel s = Returns (length l) s.
Proof.
  intros H Hlen. unfold list_size, begin, bind, atomic_load_head. simpl.
  by rewrite (list_size_loop_chain _ _ _ l).
Qed.

(** ** Properties of the state kept by every operation *)

Section Invariance.
Variable I : state T → Prop.

Lemma invariant_ret {A} (x : A) : invariant I (ret x).
Proof. by intros s s' HI [= <-]. Qed.

Lemma invariant_throw {A} : invariant I (@throw T A).
Proof. by intros s s' HI [= <-]. Qed.

Lemma invariant_spin {A} : invariant I (@spin T A).
Proof. by intros s s' HI. Qed.

Lemma invariant_bind {A B} (m : M T A) (k : A → M T B) :
  invariant I m → (∀ x, invariant I (k x)) → invariant I (bind m k).
Proof.
  intros Hm Hk s s' HI. unfold bind.
  destruct (m s) as [x s1|s1| |] eqn:E; simpl; try done.
  - apply Hk. eapply Hm; [done|]. by rewrite E.
  - intros [= <-]. eapply Hm; [done|]. by rewrite E.
Qed.

Lemma invariant_modify (f : state T → state T) :
  (∀ s, I s → I (f s)) → invariant I (modify f).
Proof. intros Hf s s' HI [= <-]. auto. Qed.

Lemma invariant_unwinding {A} (scope : M T A) (cleanup : state T → state T) :
  invariant I scope → (∀ s, I s → I (cleanup s)) →
  invariant I (unwinding scope cleanup).
Proof.
  intros Hm Hc s s' HI. unfold unwinding.
  destruct (scope s) as [x s1|s1| |] eqn:E; simpl; try done;
    intros [= <-]; apply Hc; eapply Hm; try done; by rewrite E.
Qed.

Lemma invariant_deref p : invariant I (deref p).
Proof.
  intros s s' HI. unfold deref. destruct p as [a|]; [|done].
  destruct (heap s !! a); [|done]. by intros [= <-].
Qed.

Lemma invariant_atomic_load_head : invariant I atomic_load_head.
Proof. by intros s s' HI [= <-]. Qed.

Lemma invariant_get_next p : invariant I (get_next p).
Proof.
  apply invariant_bind; [apply invariant_deref | intros; apply invariant_ret].
Qed.

Lemma invariant_is_deleted p : invariant I (is_deleted p).
Proof.
  apply invariant_bind; [apply invariant_deref | intros; apply invariant_ret].
Qed.

(** The seven ways in which an operation writes to the state. *)
Hypothesis I_log : ∀ e s, I s → I (log e s).
Hypothesis I_head : ∀ p s, I s → I (set_head p s).
Hypothesis I_spurious : ∀ o s, I s → I (set_spurious o s).
Hypothesis I_alloc : ∀ n s, I s → I (set_heap (λ h, h ++ [n]) s).
Hypothesis I_next : ∀ q a s, I s → I (set_heap (alter (with_next q) a) s).
Hypothesis I_mark : ∀ a s, I s → I (set_heap (alter (with_deleted true) a) s).
Hypothesis I_val : ∀ v a s, I s → I (set_heap (alter (with_val v) a) s).

Lemma invariant_compare_exchange expected desired :
  invariant I (atomic_compare_exchange_head expected desired).
Proof.
  intros s s' HI. unfold atomic_compare_exchange_head.
  case_decide; [|by intros [= <-]].
  destruct (spurious s) as [|[|] o]; intros [= <-]; auto.
Qed.

Lemma invariant_make_shared n : invariant I (make_shared n).
Proof. intros s s' HI [= <-]. auto. Qed.

Lemma invariant_put_next p q : invariant I (put_next p q).
Proof.
  apply invariant_bind; [apply invariant_deref|].
  intros r. apply invariant_modify. auto.
Qed.

Lemma invariant_mark_as_deleted p : invariant I (mark_as_deleted p).
Proof.
  apply invariant_bind; [apply invariant_deref|].
  intros r. destruct (m_deleted r.2); [apply invariant_ret|].
  apply invariant_bind; [|intros; apply invariant_ret].
  apply invariant_modify. auto.
Qed.

Lemma invariant_lock {A} (owned : list pointer) p (scope : M T A) :
  invariant I scope → invariant I (lock owned p scope).
Proof.
  intros Hs. apply invariant_bind; [apply invariant_deref|].
  intros r. case_decide; [by intros s s' HI|].
  apply invariant_bind; [apply invariant_modify; auto|].
  intros _. apply invariant_unwinding; auto.
Qed.

Ltac invariant_step :=
  first
    [ apply invariant_ret | apply invariant_throw | apply invariant_spin
    | apply invariant_atomic_load_head | apply invariant_compare_exchange
    | apply invariant_make_shared | apply invariant_get_next
    | apply invariant_put_next | apply invariant_is_deleted
    | apply invariant_mark_as_deleted | apply invariant_deref
    | apply invariant_lock
    | apply invariant_bind; [|intros ?]
    | match goal with
      | |- invariant _ (if ?b then _ else _) => destruct b
      end ].

Lemma invariant_clear fuel : invariant I (clear fuel).
Proof.
  unfold clear. invariant_step; [invariant_step|].
  generalize (@None nat). revert x.
  induction fuel as [|fuel IH]; intros tmp clr; simpl;
    repeat invariant_step. apply IH.
Qed.

Lemma invariant_push_front fuel val : invariant I (push_front fuel val).
Proof.
  unfold push_front. do 2 (invariant_step; [invariant_step|]).
  induction fuel as [|fuel IH]; simpl; repeat invariant_step. apply IH.
Qed.

Lemma invariant_pop_front fuel : invariant I (pop_front fuel).
Proof.
  unfold pop_front. invariant_step; [invariant_step|].
  invariant_step.
  - revert x. induction fuel as [|fuel IH]; intros [a|]; simpl;
      repeat invariant_step. apply IH.
  - repeat invariant_step.
Qed.

Lemma invariant_insert_after pos val : invariant I (insert_after pos val).
Proof. unfold insert_after. repeat invariant_step. Qed.

Lemma invariant_erase_after pos : invariant I (erase_after pos).
Proof.
  unfold erase_after. destruct (m_node_ptr pos); repeat invariant_step.
Qed.

Lemma invariant_assign it val : invariant I (assign it val).
Proof.
  apply invariant_bind; [apply invariant_deref|].
  intros r. apply invariant_modify. auto.
Qed.

Lemma invariant_run (op : operation T) : invariant I (run op).
Proof.
  destruct op; simpl; unfold forget.
  - apply invariant_push_front.
  - apply invariant_pop_front.
  - apply invariant_clear.
  - invariant_step; [apply invariant_insert_after | invariant_step].
  - invariant_step; [apply invariant_erase_after | invariant_step].
  - unfold empty. repeat invariant_step.
  - unfold begin. repeat invariant_step.
  - unfold is_valid. destruct (m_node_ptr it); repeat invariant_step.
  - unfold star. repeat invariant_step.
  - apply invariant_assign.
  - unfold incr. repeat invariant_step.
Qed.

End Invariance.

(** A tombstone survives each of the seven writes. *)
Lemma tombstoned_alter a (f : list_node T → list_node T) b s :
  (∀ n, m_deleted n = true → m_deleted (f n) = true) →
  tombstoned a s → tombstoned a (set_heap (alter f b) s).
Proof.
  intros Hf (n & Ha & Hd). unfold tombstoned. simpl.
  destruct (decide (b = a)) as [->|Hne].
  - exists (f n). by rewrite list_lookup_alter_eq, Ha; auto.
  - exists n. by rewrite list_lookup_alter_ne.
Qed.

Lemma tombstoned_run a (op : operation T) : invariant (tombstoned a) (run op).
Proof.
  apply invariant_run.
  - by intros e s (n & Ha & Hd); exists n.
  - by intros p s (n & Ha & Hd); exists n.
  - by intros o s (n & Ha & Hd); exists n.
  - intros n' s (n & Ha & Hd). exists n. simpl.
    by rewrite (lookup_app_l_Some _ _ _ _ Ha).
  - intros q b s. by apply tombstoned_alter.
  - intros b s. by apply tombstoned_alter.
  - intros v b s. by apply tombstoned_alter.
Qed.

(** ** Stores without dangling pointers *)

Lemma allocated_lookup h a : allocated h (Some a) → ∃ n, h !! a = Some n.
Proof. simpl. intros Hlt. by apply lookup_lt_is_Some_2. Qed.

Lemma closed_successor s a n d :
  closed s → heap s !! a = Some n → m_next n = Some d →
  ∃ nd, heap s !! d = Some nd.
Proof.
  intros [_ Hall] Ha Hn. apply allocated_lookup. rewrite <- Hn.
  by eapply (Forall_lookup_1 _ _ _ _ Hall).
Qed.

(** The ways through [erase_after] on a store without dangling
    pointers. *)
Lemma erase_after_cases s pos :
  closed s → allocated (heap s) (m_node_ptr pos) →
  (m_node_ptr pos = None ∧ erase_after pos s = Returns false s) ∨
  (∃ a n, m_node_ptr pos = Some a ∧ heap s !! a = Some n ∧
          m_next n = None ∧ erase_after pos s = Returns false s) ∨
  (∃ a n d nd, m_node_ptr pos = Some a ∧ heap s !! a = Some n ∧
          m_next n = Some d ∧ heap s !! d = Some nd ∧
          erase_after pos s =
            if m_deleted n
            then Returns false
                   (mk_state (heap s) (m_head s)
                             (trace s ++ [Acquire a; Release a]) (spurious s))
            else if decide (d = a) then Undefined recursive_lock
            else
              let relinked := alter (with_next (m_next nd)) a (heap s) in
              let tr :=
                trace s ++ [Acquire a; Acquire d; Release d; Release a] in
              if m_deleted nd
              then Throws (mk_state relinked (m_head s) tr (spurious s))
              else Returns true
                     (mk_state (alter (with_deleted true) d relinked)
                               (m_head s) tr (spurious s))).
Proof.
  intros Hc Hp. destruct (m_node_ptr pos) as [a|] eqn:Hpos.
  - right. destruct (allocated_lookup _ _ Hp) as [n Ha].
    destruct (m_next n) as [d|] eqn:Hn.
    + right. destruct (closed_successor _ _ _ _ Hc Ha Hn) as [nd Hd].
      exists a, n, d, nd. repeat split; try done.
      by apply erase_after_closed_form.
    + left. exists a, n. repeat split; try done.
      by eapply erase_after_last.
  - left. split; [done|]. by apply erase_after_end.
Qed.

(** What the three traversals of the test program compute on a list whose
    chain is [l]. *)
Lemma traversal (add : T → T → T) (init : T) fuel s l :
  chain (heap s) (m_head s) l → length l < fuel →
  Forall (λ n, m_deleted n = false) (heap s) →
  bind begin (λ first, accumulate add fuel first end_ init) s
    = Returns (fold_left add (values (heap s) l) init) s ∧
  bind begin (λ first, all_valid fuel first end_) s = Returns true s ∧
  list_size fuel s = Returns (length l) s.
Proof.
  intros Hch Hlen Hlive. unfold begin, atomic_load_head, ret, bind. msimpl.
  rewrite (accumulate_chain _ _ _ _ l), (all_valid_chain _ _ _ l),
    (list_size_chain _ _ l); try done.
  intros a n _ Ha. by apply (Forall_lookup_1 _ _ _ _ Hlive Ha).
Qed.

(** ** Reading through an iterator *)

Lemma is_valid_closed_form it s :
  is_valid it s =
    match m_node_ptr it with
    | None => Returns false s
    | Some a =>
        match heap s !! a with
        | Some n => Returns (negb (m_deleted n)) s
        | None => Undefined dangling_reference
        end
    end.
Proof.
  unfold is_valid, is_deleted, bind, deref, ret.
  destruct (m_node_ptr it) as [a|]; [|done]. by destruct (heap s !! a).
Qed.

Lemma star_closed_form it s :
  star it s =
    match m_node_ptr it with
    | None => Undefined null_dereference
    | Some a =>
        match heap s !! a with
        | Some n => Returns (m_val n) s
        | None => Undefined dangling_reference
        end
    end.
Proof.
  unfold star, bind, deref, ret.
  destruct (m_node_ptr it) as [a|]; [|done]. by destruct (heap s !! a).
Qed.

(** ** Dangling positions *)

Lemma erase_after_dangling pos s a :
  m_node_ptr pos = Some a → heap s !! a = None →
  erase_after pos s = Undefined dangling_reference.
Proof.
  intros Hp Ha. unfold erase_after, get_next, bind, deref. by rewrite Hp, Ha.
Qed.

Lemma erase_after_dangling_successor pos s a n d :
  m_node_ptr pos = Some a → heap s !! a = Some n →
  m_next n = Some d → heap s !! d = None →
  erase_after pos s =
    if m_deleted n
    then Returns false
           (mk_state (heap s) (m_head s) (trace s ++ [Acquire a; Release a])
                     (spurious s))
    else Undefined dangling_reference.
Proof.
  intros Hp Ha Hn Hd.
  unfold erase_after. rewrite Hp. unfold bind at 1.
  rewrite (get_next_Some _ _ _ Ha), Hn. cbn [nonnull negb].
  rewrite (lock_Some _ _ a n) by (done || apply not_elem_of_nil).
  unfold unwinding, bind at 1. rewrite (is_deleted_Some _ a n) by done.
  unfold bind at 1. rewrite (get_next_Some _ a n), Hn by done.
  destruct (m_deleted n); msimpl.
  - unfold ret. msimpl. by rewrite <- app_assoc.
  - unfold lock, deref, bind. msimpl. by rewrite Hd.
Qed.

(** What a successful [erase_after] tells about the state it ran in. *)
Lemma erase_after_true_inv pos s s' :
  erase_after pos s = Returns true s' →
  ∃ a n d nd,
    m_node_ptr pos = Some a ∧ heap s !! a = Some n ∧
    m_next n = Some d ∧ heap s !! d = Some nd ∧
    m_deleted n = false ∧ m_deleted nd = false ∧ a ≠ d ∧
    s' = mk_state (alter (with_deleted true) d
                     (alter (with_next (m_next nd)) a (heap s)))
                  (m_head s)
                  (trace s ++ [Acquire a; Acquire d; Release d; Release a])
                  (spurious s).
Proof.
  destruct (m_node_ptr pos) as [a|] eqn:Hp;
    [|by rewrite erase_after_end].
  destruct (heap s !! a) as [n|] eqn:Ha;
    [|by rewrite (erase_after_dangling _ _ a)].
  destruct (m_next n) as [d|] eqn:Hn;
    [|by rewrite (erase_after_last _ _ a n)].
  destruct (heap s !! d) as [nd|] eqn:Hd.
  - rewrite (erase_after_closed_form _ _ a n d nd) by done. simpl.
    destruct (m_deleted n) eqn:Hdn; [done|]. case_decide as Hda; [done|].
    destruct (m_deleted nd) eqn:Hdd; [done|].
    intros [= <-]. exists a, n, d, nd. by split_and!.
  - rewrite (erase_after_dangling_successor _ _ a n d) by done.
    by destruct (m_deleted n).
Qed.

Lemma pop_front_dangling fuel s a :
  m_head s = Some a → heap s !! a = None →
  pop_front (S fuel) s = Undefined dangling_reference.
Proof.
  intros Hh Ha. unfold pop_front, bind, atomic_load_head. rewrite Hh. simpl.
  unfold get_next, bind, deref. by rewrite Ha.
Qed.

Lemma events_same_trace {A} s (x : A) s' :
  trace s' = trace s → events s (Returns x s') = Some [].
Proof. intros H. unfold events. simpl. by rewrite H, drop_all. Qed.

Lemma events_longer_trace {A} s (o : outcome T A) s' evs :
  final o = Some s' → trace s' = trace s ++ evs → events s o = Some evs.
Proof.
  intros Ho H. unfold events. rewrite Ho. simpl. by rewrite H, drop_app_length.
Qed.

(** ** Operations keep the store free of dangling pointers *)

Lemma allocated_mono h h' p :
  length h ≤ length h' → allocated h p → allocated h' p.
Proof. destruct p; simpl; [lia|done]. Qed.

Lemma closed_intro h p tr o :
  allocated h p → (∀ a n, h !! a = Some n → allocated h (m_next n)) →
  closed (mk_state h p tr o).
Proof. intros Hp Hn. split; [done|]. by apply Forall_lookup. Qed.

Lemma closed_next s a n : closed s → heap s !! a = Some n →
  allocated (heap s) (m_next n).
Proof. intros [_ Hall] Ha. by apply (Forall_lookup_1 _ _ _ _ Hall Ha). Qed.

Lemma closed_alter (f : list_node T → list_node T) a h p tr tr' o o' :
  (∀ n, allocated h (m_next n) → allocated h (m_next (f n))) →
  closed (mk_state h p tr o) → closed (mk_state (alter f a h) p tr' o').
Proof.
  intros Hf Hc. pose proof Hc as [Hp _]. simpl in Hp.
  assert (∀ q, allocated h q → allocated (alter f a h) q) as Hmono
    by (intros q; apply allocated_mono; by rewrite length_alter).
  apply closed_intro; [by apply Hmono|]. intros b nb Hb. apply Hmono.
  destruct (decide (a = b)) as [<-|Hne].
  - rewrite list_lookup_alter_eq in Hb.
    destruct (h !! a) as [n|] eqn:Ha; simplify_eq/=.
    apply Hf. by apply (closed_next _ a _ Hc).
  - rewrite list_lookup_alter_ne in Hb by done.
    by apply (closed_next _ _ _ Hc Hb).
Qed.

Lemma closed_snoc h p n q tr tr' o o' :
  allocated (h ++ [n]) q → allocated h (m_next n) →
  closed (mk_state h p tr o) → closed (mk_state (h ++ [n]) q tr' o').
Proof.
  intros Hq Hn Hc.
  assert (∀ r, allocated h r → allocated (h ++ [n]) r) as Hmono
    by (intros r; apply allocated_mono; rewrite length_app; lia).
  apply closed_intro; [done|]. intros b nb [Hb|[_ Hb]]%lookup_app_Some.
  - apply Hmono. by apply (closed_next _ _ _ Hc Hb).
  - destruct (b - length h) as [|k]; simplify_eq/=. by apply Hmono.
Qed.

Lemma closed_empty_list o : closed (@empty_list T o).
Proof. by apply closed_intro. Qed.

Lemma closed_run (op : operation T) s s' :
  closed s → allocated (heap s) (position op) →
  final (run op s) = Some s' → closed s'.
Proof.
  intros Hc Hp. destruct s as [h hd tr o].
  assert (∀ b nb, h !! b = Some nb → allocated h (m_next nb)) as Hnext
    by (intros b nb; apply (closed_next _ b _ Hc)).
  destruct op as [fuel val|fuel|fuel|pos val|pos| | |it|it|it val|it];
    simpl in Hp; simpl run.
  - rewrite push_front_closed_form. case_decide; [|done]. intros [= <-].
    eapply closed_snoc; [simpl; rewrite length_app; simpl; lia| |done].
    apply Hc.
  - destruct hd as [a|];
      [|destruct fuel; [done | by rewrite pop_front_empty]].
    destruct (allocated_lookup h a (proj1 Hc)) as [n Ha].
    rewrite (pop_front_closed_form _ _ a n) by done.
    case_decide; [|done]. simpl.
    destruct (m_deleted n); intros [= <-].
    + apply closed_intro; eauto.
    + eapply (closed_alter _ _ _ _ tr _ o); [done|].
      apply closed_intro; eauto.
  - rewrite clear_closed_form. case_decide; [|done]. intros [= <-].
    by apply closed_intro.
  - unfold forget, bind.
    destruct (m_node_ptr pos) as [a|] eqn:Hpos;
      [|by rewrite insert_after_end].
    destruct (allocated_lookup h a Hp) as [n Ha].
    rewrite (insert_after_closed_form pos val _ a n) by done. simpl.
    destruct (m_deleted n); intros [= <-].
    + eapply closed_snoc; [|done|exact Hc].
      eapply allocated_mono; [|exact (proj1 Hc)].
      rewrite length_app. simpl. lia.
    + rewrite <- alter_app_l by (by eapply lookup_lt_Some).
      eapply (closed_alter _ _ _ _ tr _ o).
      { intros n0 _. simpl. rewrite length_app. simpl. lia. }
      eapply closed_snoc; [|simpl; by eapply Hnext|exact Hc].
      eapply allocated_mono; [|exact (proj1 Hc)].
      rewrite length_app. simpl. lia.
  - unfold forget, bind.
    destruct (erase_after_cases _ pos Hc Hp)
      as [[_ Hr] | [(a & n & _ & _ & _ & Hr)
                   | (a & n & d & nd & Hpos & Ha & Hn & Hd & Hr)]];
      rewrite Hr; simpl; try by intros [= <-].
    assert (∀ n0, allocated h (m_next n0) →
                  allocated h (m_next (with_next (m_next nd) n0))) as Hrelink
      by (intros n0 _; simpl; by eapply Hnext).
    destruct (m_deleted n); simpl; [by intros [= <-]|].
    case_decide; [done|].
    destruct (m_deleted nd); simpl; intros [= <-].
    + by eapply (closed_alter _ _ _ _ tr _ o).
    + eapply (closed_alter _ _ _ _ tr _ o); [done|].
      by eapply (closed_alter _ _ _ _ tr _ o).
  - by intros [= <-].
  - by intros [= <-].
  - intros Hs'. eapply (invariant_bind closed); try done.
    + unfold is_valid. destruct (m_node_ptr it).
      * apply invariant_bind; [apply invariant_is_deleted|].
        intros; apply invariant_ret.
      * apply invariant_ret.
    + intros; apply invariant_ret.
  - intros Hs'. eapply (invariant_bind closed); try done.
    + apply invariant_bind; [apply invariant_deref|].
      intros; apply invariant_ret.
    + intros; apply invariant_ret.
  - intros Hs'. eapply (invariant_bind closed); try done.
    + apply invariant_deref.
    + intros r. apply invariant_modify. intros [h0 p0 tr0 o0] Hc0.
      by eapply (closed_alter _ _ _ _ tr0 _ o0).
  - intros Hs'. eapply (invariant_bind closed); try done.
    + apply invariant_bind; [apply invariant_get_next|].
      intros; apply invariant_ret.
    + intros; apply invariant_ret.
Qed.

(** ** Stores in which no node reaches itself *)

Lemma acyclic_no_self_loop h a n :
  acyclic h → h !! a = Some n → m_next n ≠ Some a.
Proof.
  intros Hac Ha Hn. destruct (Hac a) as [l Hl]; [by eapply lookup_lt_Some|].
  destruct l as [|b l]; [done|].
  pose proof Hl as ([= <-] & n' & Ha' & Htl). simplify_eq.
  rewrite Hn in Htl. pose proof (chain_functional _ _ _ _ Hl Htl) as Heq.
  apply (f_equal length) in Heq. simpl in Heq. lia.
Qed.

Lemma acyclic_nil : acyclic (@nil (list_node T)).
Proof. intros a Ha. simpl in Ha. lia. Qed.

Lemma acyclic_alter (f : list_node T → list_node T) a0 h :
  (∀ n, m_next (f n) = m_next n) → acyclic h → acyclic (alter f a0 h).
Proof.
  intros Hf Hac a Ha. rewrite length_alter in Ha.
  destruct (Hac a Ha) as [l Hl]. exists l.
  eapply lseg_ext; [|exact Hl]. intros b Hb.
  destruct (decide (a0 = b)) as [->|Hne].
  - rewrite list_lookup_alter_eq. destruct (h !! b); simpl; [|done].
    by rewrite Hf.
  - by rewrite list_lookup_alter_ne.
Qed.

Lemma acyclic_snoc h n :
  allocated h (m_next n) → acyclic h → acyclic (h ++ [n]).
Proof.
  intros Hn Hac a Ha. rewrite length_app in Ha. simpl in Ha.
  assert (∀ b l, chain h (Some b) l → chain (h ++ [n]) (Some b) l) as Hext.
  { intros b l Hl. eapply lseg_ext; [|exact Hl]. intros c Hc.
    by rewrite lookup_app_l by (eapply lseg_allocated; eauto). }
  destruct (decide (a = length h)) as [->|Hne].
  - destruct (m_next n) as [b|] eqn:Hb.
    + destruct (Hac b Hn) as [l Hl]. exists (length h :: l).
      split; [done|]. exists n. split; [by apply list_lookup_middle|].
      rewrite Hb. by apply Hext.
    + exists [length h]. split; [done|]. exists n.
      split; [by apply list_lookup_middle|]. by rewrite Hb.
  - destruct (Hac a) as [l Hl]; [lia|]. exists l. by apply Hext.
Qed.

Lemma acyclic_insert_after h a0 n0 (val : T) :
  h !! a0 = Some n0 → acyclic h →
  acyclic (alter (with_next (Some (length h))) a0 h
             ++ [mk_node val false (m_next n0)]).
Proof.
  intros H0 Hac a Ha. rewrite length_app, length_alter in Ha. simpl in Ha.
  destruct (decide (a = length h)) as [->|Hne].
  - destruct (Hac a0) as [l0 Hl0]; [by eapply lookup_lt_Some|].
    destruct l0 as [|b l2]; [done|]. pose proof Hl0 as ([= <-] & _).
    pose proof (chain_insert_after h (Some a0) [] a0 n0 l2 val H0 Hl0)
      as (_ & n' & Hn' & Htl).
    pose proof Htl as (Heq & _). rewrite Heq in Htl.
    by exists (length h :: l2).
  - destruct (Hac a) as [l Hl]; [lia|].
    destruct (decide (a0 ∈ l)) as [(l1 & l2 & ->)%list_elem_of_split|Hnin].
    + eexists. by apply chain_insert_after.
    + exists l. eapply lseg_ext; [|exact Hl]. intros c Hc.
      rewrite lookup_app_l
        by (rewrite length_alter; eapply lseg_allocated; eauto).
      rewrite list_lookup_alter_ne; [done|]. by intros ->.
Qed.

Lemma acyclic_erase_after h a0 n0 d nd :
  h !! a0 = Some n0 → m_next n0 = Some d → h !! d = Some nd →
  acyclic h → acyclic (alter (with_next (m_next nd)) a0 h).
Proof.
  intros H0 Hn0 Hd Hac a Ha. rewrite length_alter in Ha.
  destruct (Hac a Ha) as [l Hl].
  destruct (decide (a0 ∈ l)) as [(l1 & l2 & ->)%list_elem_of_split|Hnin].
  - pose proof Hl as (q & _ & _ & n & Hn & Htl)%lseg_app. simplify_eq.
    rewrite Hn0 in Htl. destruct l2 as [|d' l2]; [done|].
    pose proof Htl as ([= <-] & _).
    exists (l1 ++ a0 :: l2). by eapply chain_erase_after.
  - exists l. eapply lseg_ext; [|exact Hl]. intros b Hb.
    rewrite list_lookup_alter_ne; [done|]. by intros ->.
Qed.

(** No operation closes a cycle. *)
Lemma acyclic_run (op : operation T) s s' :
  closed s → acyclic (heap s) → allocated (heap s) (position op) →
  final (run op s) = Some s' → acyclic (heap s').
Proof.
  intros Hc Hac Hp. destruct s as [h hd tr o]. simpl in Hac.
  destruct op as [fuel val|fuel|fuel|pos val|pos| | |it|it|it val|it];
    simpl in Hp; simpl run.
  - rewrite push_front_closed_form. case_decide; [|done]. intros [= <-].
    simpl. apply acyclic_snoc; [apply Hc|done].
  - destruct hd as [a|];
      [|destruct fuel; [done | by rewrite pop_front_empty]].
    destruct (allocated_lookup h a (proj1 Hc)) as [n Ha].
    rewrite (pop_front_closed_form _ _ a n) by done.
    case_decide; [|done]. simpl.
    destruct (m_deleted n); intros [= <-]; simpl; [done|].
    by apply acyclic_alter.
  - rewrite clear_closed_form. case_decide; [|done]. by intros [= <-].
  - unfold forget, bind.
    destruct (m_node_ptr pos) as [a|] eqn:Hpos;
      [|by rewrite insert_after_end].
    destruct (allocated_lookup h a Hp) as [n Ha].
    rewrite (insert_after_closed_form pos val _ a n) by done. simpl.
    destruct (m_deleted n); intros [= <-]; simpl.
    + by apply acyclic_snoc.
    + by apply acyclic_insert_after.
  - unfold forget, bind.
    destruct (erase_after_cases _ pos Hc Hp)
      as [[_ Hr] | [(a & n & _ & _ & _ & Hr)
                   | (a & n & d & nd & Hpos & Ha & Hn & Hd & Hr)]];
      rewrite Hr; simpl; try by intros [= <-].
    destruct (m_deleted n); simpl; [by intros [= <-]|].
    case_decide; [done|].
    pose proof (acyclic_erase_after h a n d nd Ha Hn Hd Hac) as Hac'.
    destruct (m_deleted nd); simpl; intros [= <-]; simpl; [done|].
    by apply acyclic_alter.
  - by intros [= <-].
  - by intros [= <-].
  - unfold forget, bind. rewrite is_valid_closed_form. simpl.
    destruct (m_node_ptr it) as [a|]; [|by intros [= <-]].
    destruct (h !! a); [|done]. by intros [= <-].
  - unfold forget, bind. rewrite star_closed_form. simpl.
    destruct (m_node_ptr it) as [a|]; [|done].
    destruct (h !! a); [|done]. by intros [= <-].
  - unfold assign, bind, deref, modify. simpl.
    destruct (m_node_ptr it) as [a|]; [|done].
    destruct (h !! a); [|done]. intros [= <-]. simpl.
    by apply acyclic_alter.
  - unfold forget, incr, get_next, bind, deref, ret. simpl.
    destruct (m_node_ptr it) as [a|]; [|done].
    destruct (h !! a); [|done]. by intros [= <-].
Qed.

(** One thread never makes a node its own successor. *)
Lemma reachable_acyclic s : reachable s → closed s ∧ acyclic (heap s).
Proof.
  induction 1 as [o|s op s' _ [IHc IHa] Hp Hfin].
  - split; [apply closed_empty_list | apply acyclic_nil].
  - split; [by eapply closed_run | by eapply acyclic_run].
Qed.

Lemma reachable_no_self_loop s a n :
  reachable s → heap s !! a = Some n → m_next n ≠ Some a.
Proof. intros [_ Hac]%reachable_acyclic. by apply acyclic_no_self_loop. Qed.

(** ** The values along a chain *)

Lemma values_unfold h a l :
  values h (a :: l) =
    match m_val <$> h !! a with
    | Some v => v :: values h l
    | None => values h l
    end.
Proof. reflexivity. Qed.

Lemma values_cons h a n l :
  h !! a = Some n → values h (a :: l) = m_val n :: values h l.
Proof. intros Ha. by rewrite values_unfold, Ha. Qed.

Lemma values_ext h h' l :
  (∀ a, a ∈ l → m_val <$> h' !! a = m_val <$> h !! a) →
  values h' l = values h l.
Proof.
  intros Hagree. induction l as [|a l IH]; [done|].
  rewrite !values_unfold, Hagree by (by left). rewrite IH; [done|].
  intros b Hb. apply Hagree. by right.
Qed.

Lemma values_push_front h p l (val : T) :
  chain h p l →
  values (h ++ [mk_node val false p]) (length h :: l) = val :: values h l.
Proof.
  intros Hch. rewrite (values_cons _ _ (mk_node val false p))
    by (by apply list_lookup_middle).
  simpl. f_equal. apply values_ext. intros a Ha.
  by rewrite lookup_app_l by (eapply lseg_allocated; eauto).
Qed.

Lemma values_pop_front h a l :
  a ∉ l → values (alter (with_deleted true) a h) l = values h l.
Proof.
  intros Hnin. apply values_ext. intros b Hb.
  rewrite list_lookup_alter_ne; [done|]. by intros ->.
Qed.

(** [*it] at the first node of a chain. *)
Lemma star_chain s p a l v vs :
  chain (heap s) p (a :: l) → values (heap s) (a :: l) = v :: vs →
  star (mk_iterator p) s = Returns v s.
Proof.
  intros (-> & n & Ha & _) Hv. rewrite (values_cons _ _ n _ Ha) in Hv.
  injection Hv as <- _. rewrite star_closed_form. simpl. by rewrite Ha.
Qed.

(** [*cbegin()] on a non-empty list. *)
Lemma front_chain s a l v vs :
  chain (heap s) (m_head s) (a :: l) → values (heap s) (a :: l) = v :: vs →
  bind begin star s = Returns v s.
Proof.
  intros Hch Hv. unfold begin, atomic_load_head, ret, bind. msimpl.
  by eapply star_chain.
Qed.

(** ** Pushing a sequence of values *)

Lemma push_all_chain fuel (vals : list T) s l :
  longest_run (spurious s) < fuel →
  chain (heap s) (m_head s) l → live s →
  ∃ s' l',
    push_all fuel vals s = Returns tt s' ∧
    chain (heap s') (m_head s') (l' ++ l) ∧ length l' = length vals ∧
    values (heap s') (l' ++ l) = rev vals ++ values (heap s) l ∧
    live s' ∧ length (trace s') = length (trace s) + length vals ∧
    longest_run (spurious s') ≤ longest_run (spurious s).
Proof.
  revert s l. induction vals as [|v vals IH]; intros s l Hfuel Hch Hlive.
  - exists s, []. split_and!; try done; simpl; lia.
  - simpl. unfold bind. rewrite push_front_closed_form.
    pose proof (spurious_run_le_longest (spurious s)) as Hrun.
    rewrite decide_True by lia.
    pose proof (longest_run_settle (spurious s)) as Hsettle.
    edestruct (IH (mk_state (heap s ++ [mk_node v false (m_head s)])
                            (Some (length (heap s)))
                            (trace s ++ [Exchange (m_head s)
                                           (Some (length (heap s)))])
                            (settle (spurious s)))
                  (length (heap s) :: l))
      as (s' & l' & Hs' & Hch' & Hlen & Hval & Hlive' & Htr & Ho).
    { simpl. lia. }
    { by apply chain_push_front. }
    { apply Forall_app. split; [done|]. by repeat constructor. }
    cbn [heap m_head trace spurious] in *.
    exists s', (l' ++ [length (heap s)]).
    replace ((l' ++ [length (heap s)]) ++ l)
      with (l' ++ length (heap s) :: l) by (by rewrite <- app_assoc).
    split_and!; try done.
    + rewrite length_app. simpl. lia.
    + rewrite Hval, (values_push_front _ _ _ _ Hch). simpl.
      by rewrite <- app_assoc.
    + rewrite Htr, length_app. simpl. lia.
    + lia.
Qed.

End Proofs.

(** * The claims *)

(** C1.  [pop_front] on an empty list does neither of the two things the
    contract allows: the loop is left at once with an empty [old_head], and
    [old_head->lock()] then goes through that empty pointer.  This holds
    whatever the store holds, whatever failures are to come and however
    many attempts the loop is given. *)
Theorem pop_front_on_empty_list {T} fuel (h : list (list_node T)) tr o :
  pop_front (S fuel) (mk_state h None tr o) = Undefined null_dereference.
Proof. apply pop_front_empty. Qed.

(** C2.  On a store without dangling pointers, [erase_after pos] returns
    false exactly when [pos] is the end position, or its node has no
    successor, or its node is marked deleted, and then neither the store nor
    the head has changed.  Otherwise let [d] be the successor of the node
    [a] of [pos].  In a state that one thread has reached [d] is not [a];
    were it [a], the call would lock the mutex it holds and not come back.
    With [d] another node, [a] is relinked to the successor of [d]; if [d]
    was already marked the exception escapes, and if not the result is
    true.  Either way, in the state that is left the deleted flag of [d] is
    set and an iterator at [d] is not valid, [d] keeps its value and its
    successor, no node but [a] and [d] and not the head has changed, and
    every chain through [a] and [d] loses [d] and nothing else. *)
Theorem erase_after_correct {T} (s : state T) pos :
  closed s → allocated (heap s) (m_node_ptr pos) →
  let refused :=
    m_node_ptr pos = None ∨
    ∃ a n, m_node_ptr pos = Some a ∧ heap s !! a = Some n ∧
           (m_next n = None ∨ m_deleted n = true) in
  ((∃ s', erase_after pos s = Returns false s') ↔ refused) ∧
  (∀ s', erase_after pos s = Returns false s' →
         heap s' = heap s ∧ m_head s' = m_head s) ∧
  (¬ refused →
     ∃ a n d nd,
       m_node_ptr pos = Some a ∧ heap s !! a = Some n ∧
       m_next n = Some d ∧ heap s !! d = Some nd ∧
       (reachable s → d ≠ a) ∧
       (d = a → erase_after pos s = Undefined recursive_lock) ∧
       (d ≠ a →
          let relinked := alter (with_next (m_next nd)) a (heap s) in
          let tr := trace s ++ [Acquire a; Acquire d; Release d; Release a] in
          erase_after pos s =
            (if m_deleted nd
             then Throws (mk_state relinked (m_head s) tr (spurious s))
             else Returns true
                    (mk_state (alter (with_deleted true) d relinked)
                              (m_head s) tr (spurious s))) ∧
          ∃ s', final (erase_after pos s) = Some s' ∧
            heap s' !! a = Some (with_next (m_next nd) n) ∧
            (∃ nd', heap s' !! d = Some nd' ∧ m_deleted nd' = true ∧
                    m_val nd' = m_val nd ∧ m_next nd' = m_next nd) ∧
            is_valid (mk_iterator (Some d)) s' = Returns false s' ∧
            (∀ b, b ≠ a → b ≠ d → heap s' !! b = heap s !! b) ∧
            m_head s' = m_head s ∧
            ∀ p l1 l2,
              chain (heap s) p (l1 ++ a :: d :: l2) →
              chain (heap s') p (l1 ++ a :: l2))).
Proof.
  intros Hc Hp refused.
  destruct (erase_after_cases s pos Hc Hp)
    as [[Hpos Hr] | [(a & n & Hpos & Ha & Hn & Hr)
                    | (a & n & d & nd & Hpos & Ha & Hn & Hd & Hr)]].
  - assert refused by (by left).
    rewrite Hr. split; [|split]; [split; eauto | by intros s' [= <-] | done].
  - assert refused by (right; eauto 10).
    rewrite Hr. split; [|split]; [split; eauto | by intros s' [= <-] | done].
  - destruct (m_deleted n) eqn:Hdn.
    + assert refused by (right; eauto 10).
      rewrite Hr. split; [|split]; [split; eauto | by intros s' [= <-] | done].
    + assert (¬ refused) as Hnr.
      { intros [?|(a' & n' & ? & ? & [?|?])]; congruence. }
      cbv iota in Hr. split; [|split].
      * split; [|done]. intros [s' Hs']. rewrite Hr in Hs'.
        case_decide; [done|]. simpl in Hs'. by destruct (m_deleted nd).
      * intros s' Hs'. rewrite Hr in Hs'.
        case_decide; [done|]. simpl in Hs'. by destruct (m_deleted nd).
      * intros _. exists a, n, d, nd. split_and!; try done.
        { intros Hre ->. by apply (reachable_no_self_loop s a n Hre Ha). }
        { intros ->. by rewrite Hr, decide_True. }
        intros Hne. rewrite Hr, decide_False by done. cbv zeta.
        split; [done|].
        set (relinked := alter (with_next (m_next nd)) a (heap s)).
        assert (relinked !! a = Some (with_next (m_next nd) n)) as Hra
          by (unfold relinked; by rewrite list_lookup_alter_eq, Ha).
        assert (∀ b, b ≠ a → relinked !! b = heap s !! b) as Hrb
          by (intros b Hb; unfold relinked; by rewrite list_lookup_alter_ne).
        assert (∀ p l1 l2, chain (heap s) p (l1 ++ a :: d :: l2) →
                  chain relinked p (l1 ++ a :: l2) ∧
                  chain (alter (with_deleted true) d relinked) p
                        (l1 ++ a :: l2)) as Hch
          by (intros p l1 l2; by apply chain_erase_after).
        destruct (m_deleted nd) eqn:Hdd; eexists; (split; [reflexivity|]);
          cbn [heap m_head].
        -- split_and!; try done.
           ++ exists nd. by rewrite Hrb, Hd.
           ++ rewrite is_valid_closed_form. cbn [m_node_ptr heap].
              by rewrite Hrb, Hd, Hdd.
           ++ intros b Hb _. by apply Hrb.
           ++ intros p l1 l2 H. by apply Hch.
        -- split_and!; try done.
           ++ by rewrite list_lookup_alter_ne.
           ++ eexists. rewrite list_lookup_alter_eq, Hrb, Hd by done.
              by split_and!.
           ++ rewrite is_valid_closed_form. cbn [m_node_ptr heap].
              by rewrite list_lookup_alter_eq, Hrb, Hd.
           ++ intros b Hb Hb'. rewrite list_lookup_alter_ne by done.
              by apply Hrb.
           ++ intros p l1 l2 H. by apply Hch.
Qed.

Lemma erase_after_correct_witness :
  closed Test.three ∧ allocated (heap Test.three) (Some 2) ∧
  ∃ s', final (erase_after (mk_iterator (Some 2)) Test.three) = Some s' ∧
        (∃ nd', heap s' !! 1 = Some nd' ∧ m_deleted nd' = true) ∧
        is_valid (mk_iterator (Some 1)) s' = Returns false s' ∧
        chain (heap s') (m_head s') [2; 0].
Proof.
  assert (closed Test.three) as Hc by compute_done.
  assert (allocated (heap Test.three) (Some 2)) as Hp by compute_done.
  split; [done|]. split; [done|].
  destruct (erase_after_correct Test.three (mk_iterator (Some 2)) Hc Hp)
    as (_ & _ & H).
  destruct H as (a & n & d & nd & Hpos & Ha & Hn & Hd & _ & _ & H).
  { intros [?|(a & n & ? & ? & [?|?])]; simplify_eq/=. }
  simplify_eq/=.
  destruct (H ltac:(done))
    as (_ & s' & Hs' & _ & (nd' & Hd' & Hmark & _) & Hv & _ & Hh & Hch).
  exists s'. split; [exact Hs'|]. split; [by exists nd'|].
  split; [exact Hv|]. rewrite Hh. apply (Hch (Some 2) [] [0]). compute_done.
Defined.

(** C3.  On a store without dangling pointers and for [pos] at a node [a],
    [insert_after pos val] returns false exactly when that node is marked
    deleted.  In that case the head and every node are as before, nothing
    refers to the node that was allocated, and every chain is the same
    list.  Otherwise the result is true, the new node holds [val] and has
    the old successor of [a] as its successor, [a] has the new node as its
    successor, no other node has changed, and every chain through [a] gains
    the new node right after [a]. *)
Theorem insert_after_correct {T} (s : state T) pos (val : T) a n :
  closed s → m_node_ptr pos = Some a → heap s !! a = Some n →
  let fresh := length (heap s) in
  ((∃ s', insert_after pos val s = Returns false s') ↔ m_deleted n = true) ∧
  (∀ s', insert_after pos val s = Returns false s' →
     m_head s' = m_head s ∧
     (∀ b nb, heap s !! b = Some nb → heap s' !! b = Some nb) ∧
     m_head s' ≠ Some fresh ∧
     (∀ b nb, heap s' !! b = Some nb → m_next nb ≠ Some fresh) ∧
     (∀ p l, chain (heap s) p l → chain (heap s') p l)) ∧
  (m_deleted n = false →
     ∃ s', insert_after pos val s = Returns true s' ∧
       m_head s' = m_head s ∧
       heap s' !! fresh = Some (mk_node val false (m_next n)) ∧
       heap s' !! a = Some (with_next (Some fresh) n) ∧
       (∀ b, b ≠ a → b < fresh → heap s' !! b = heap s !! b) ∧
       length (heap s') = S fresh ∧
       (∀ p l1 l2, chain (heap s) p (l1 ++ a :: l2) →
                   chain (heap s') p (l1 ++ a :: fresh :: l2))).
Proof.
  intros [Hhead Hall] Hpos Ha fresh.
  pose proof (insert_after_closed_form pos val s a n Hpos Ha) as Hr.
  pose proof (lookup_lt_Some _ _ _ Ha) as Hlt.
  simpl in Hr. destruct (m_deleted n) eqn:Hd.
  - split; [split; eauto|]. split; [|done].
    intros s' Hs'. rewrite Hr in Hs'. injection Hs' as <-. simpl.
    split_and!; try reflexivity.
    + intros b nb. apply lookup_app_l_Some.
    + intros Heq. rewrite Heq in Hhead. simpl in Hhead. lia.
    + intros b nb [Hb|[_ Hb]]%lookup_app_Some Hn.
      * pose proof (Forall_lookup_1 _ _ _ _ Hall Hb) as Hal.
        cbv beta in Hal. rewrite Hn in Hal. simpl in Hal. lia.
      * destruct (b - length (heap s)) as [|k]; simplify_eq/=.
    + intros p l Hch. eapply lseg_ext; [|exact Hch]. intros b Hb.
      by rewrite lookup_app_l by (eapply lseg_allocated; eauto).
  - split; [split; [intros [s' Hs']; congruence | done]|].
    split; [intros s' Hs'; congruence|].
    intros _. eexists. split; [exact Hr|]. simpl.
    split_and!; try reflexivity.
    + apply list_lookup_middle. by rewrite length_alter.
    + rewrite lookup_app_l by (by rewrite length_alter).
      by rewrite list_lookup_alter_eq, Ha.
    + intros b Hne Hb. rewrite lookup_app_l by (by rewrite length_alter).
      by rewrite list_lookup_alter_ne.
    + rewrite length_app, length_alter. simpl. lia.
    + intros p l1 l2. by apply chain_insert_after.
Qed.

Lemma insert_after_correct_witness :
  closed Test.three ∧ heap Test.three !! 1 = Some (mk_node 2%Z false (Some 0)) ∧
  ∃ s', insert_after (mk_iterator (Some 1)) 5%Z Test.three = Returns true s' ∧
        chain (heap s') (m_head s') [2; 1; 3; 0].
Proof.
  assert (closed Test.three) as Hc by compute_done.
  split; [done|]. split; [done|].
  destruct (insert_after_correct Test.three (mk_iterator (Some 1)) 5%Z 1
              (mk_node 2%Z false (Some 0)) Hc eq_refl eq_refl)
    as (_ & _ & H).
  destruct (H eq_refl) as (s' & Hs' & Hh & _ & _ & _ & _ & Hch).
  exists s'. split; [done|]. rewrite Hh.
  apply (Hch (Some 2) [2] [0]). compute_done.
Defined.

(** C4.  Given more attempts than the failures that come first,
    [push_front val] returns with a store that has one more node, at a
    fresh address: it holds [val], is not marked, and its successor is the
    old head; it is the new head; every node that was there is unchanged;
    the list is the old list with the new node in front.  After
    [push_front(1)], ..., [push_front(100)] on an empty list the list has
    100 nodes holding 100, ..., 1, the sum over [cbegin(), cend()) is 5050,
    [is_valid()] is true at every position and [list_size] is 100, whatever
    failures come, as long as each loop is given more attempts than it
    needs. *)
Theorem push_front_correct :
  (∀ T fuel (val : T) (s : state T),
     spurious_run (spurious s) < fuel →
     let fresh := length (heap s) in
     ∃ s', push_front fuel val s = Returns tt s' ∧
       m_head s' = Some fresh ∧
       heap s' !! fresh = Some (mk_node val false (m_head s)) ∧
       length (heap s') = S fresh ∧
       (∀ b nb, heap s !! b = Some nb → heap s' !! b = Some nb) ∧
       (∀ l, chain (heap s) (m_head s) l →
             chain (heap s') (m_head s') (fresh :: l))) ∧
  (∀ fuel o,
     longest_run o < fuel →
     ∃ s l,
       Test.after_push fuel o = Returns tt s ∧
       chain (heap s) (m_head s) l ∧ length l = 100 ∧
       values (heap s) l = Z.of_nat <$> rev (seq 1 100) ∧
       ∀ fuel', 100 < fuel' →
         Test.sum fuel' s = Returns 5050%Z s ∧
         Test.check_valid fuel' s = Returns true s ∧
         list_size fuel' s = Returns 100 s).
Proof.
  split.
  - intros T fuel val s Hfuel fresh. eexists.
    rewrite push_front_closed_form, decide_True by done.
    split; [done|]. simpl. split_and!; try reflexivity.
    + by apply list_lookup_middle.
    + rewrite length_app. simpl. lia.
    + intros b nb. apply lookup_app_l_Some.
    + intros l. apply chain_push_front.
  - intros fuel o Hfuel.
    destruct (push_all_chain fuel Test.pushed (empty_list o) [])
      as (s & l & Hs & Hch & Hlen & Hval & Hlive & _ & _);
      [done | done | by constructor |].
    rewrite app_nil_r in Hch, Hval.
    change (length Test.pushed) with 100 in Hlen.
    change (rev Test.pushed ++ values (heap (empty_list o)) [])
      with (Z.of_nat <$> rev (seq 1 100)) in Hval.
    exists s, l. split_and!; try done.
    intros fuel' Hfuel'.
    destruct (traversal Z.add 0%Z fuel' s l Hch) as (Hsum & Hvalid & Hsz);
      [lia | done |].
    unfold Test.sum, Test.check_valid.
    by rewrite Hsum, Hvalid, Hsz, Hval, Hlen.
Qed.

Lemma push_front_correct_witness :
  spurious_run [true; true; false; true] < 3 ∧
  chain (heap Test.three) (m_head Test.three) [2; 1; 0] ∧
  longest_run [true; true; false; true] < 3 ∧ 100 < 101 ∧
  (∃ s', push_front 3 4%Z (set_spurious [true; true; false; true] Test.three)
           = Returns tt s' ∧
         chain (heap s') (m_head s') [3; 2; 1; 0]) ∧
  (∃ s, Test.after_push 3 [true; true; false; true] = Returns tt s ∧
        Test.sum 101 s = Returns 5050%Z s).
Proof.
  assert (spurious_run [true; true; false; true] < 3) as Hrun
    by (simpl; lia).
  assert (longest_run [true; true; false; true] < 3) as Hlong
    by (simpl; lia).
  assert (chain (heap Test.three) (m_head Test.three) [2; 1; 0]) as Hch
    by compute_done.
  assert (100 < 101) as Hlt by lia.
  split_and!; try done.
  - destruct (proj1 push_front_correct Z 3 4%Z
                (set_spurious [true; true; false; true] Test.three) Hrun)
      as (s' & Hs' & _ & _ & _ & _ & H).
    exists s'. split; [done|]. by apply H.
  - destruct (proj2 push_front_correct 3 [true; true; false; true] Hlong)
      as (s & l & Hs & _ & _ & _ & H).
    exists s. split; [done|]. by apply H.
Defined.

(** C5.  On a non-empty list, with [a] the head node, and given more
    attempts than the failures that come first, [pop_front] leaves a state
    whose head is the successor of [a], in which the deleted flag of [a] is
    set, so that an iterator at [a] is not valid, while [a] keeps its value
    and its successor and every other node is unchanged; the list is the
    old list without its first node.  It returns when [a] was not marked
    before and lets the exception escape when it was.  After
    [push_front(1)], ..., [push_front(100)] on an empty list, one
    [pop_front()] makes [*cbegin()] equal to 99, and the node that was the
    head, valid before, is not valid after. *)
Theorem pop_front_correct :
  (∀ T fuel (s : state T) a n,
     spurious_run (spurious s) < fuel →
     m_head s = Some a → heap s !! a = Some n →
     ∃ s', pop_front fuel s
             = (if m_deleted n then Throws s' else Returns tt s') ∧
       m_head s' = m_next n ∧
       heap s' !! a = Some (with_deleted true n) ∧
       (∃ n', heap s' !! a = Some n' ∧ m_deleted n' = true ∧
              m_val n' = m_val n ∧ m_next n' = m_next n) ∧
       is_valid (mk_iterator (Some a)) s' = Returns false s' ∧
       (∀ b, b ≠ a → heap s' !! b = heap s !! b) ∧
       (∀ l, chain (heap s) (m_head s) (a :: l) →
             chain (heap s') (m_head s') l)) ∧
  (∀ fuel o,
     longest_run o < fuel →
     ∃ s s' a,
       Test.after_push fuel o = Returns tt s ∧
       pop_front fuel s = Returns tt s' ∧
       Test.front s' = Returns 99%Z s' ∧
       m_head s = Some a ∧
       is_valid (mk_iterator (Some a)) s = Returns true s ∧
       is_valid (mk_iterator (Some a)) s' = Returns false s').
Proof.
  split.
  - intros T fuel s a n Hfuel Hh Ha.
    exists (mk_state (alter (with_deleted true) a (heap s)) (m_next n)
                     (trace s ++ [Exchange (Some a) (m_next n);
                                  Acquire a; Release a])
                     (settle (spurious s))).
    assert (alter (with_deleted true) a (heap s) !! a
            = Some (with_deleted true n)) as Ha'
      by (by rewrite list_lookup_alter_eq, Ha).
    cbn [heap m_head]. split_and!; try done.
    + rewrite (pop_front_closed_form fuel s a n Hh Ha), decide_True by done.
      cbv zeta. destruct (m_deleted n) eqn:Hd; [|done].
      by rewrite (alter_fixed _ _ _ n Ha (with_deleted_true_id n Hd)).
    + by exists (with_deleted true n).
    + rewrite is_valid_closed_form. cbn [m_node_ptr heap]. by rewrite Ha'.
    + intros b Hne. by rewrite list_lookup_alter_ne.
    + intros l. rewrite Hh. by apply chain_pop_front.
  - intros fuel o Hfuel.
    destruct (push_all_chain fuel Test.pushed (empty_list o) [])
      as (s & l & Hs & Hch & Hlen & Hval & Hlive & _ & Ho);
      [done | done | by constructor |].
    rewrite app_nil_r in Hch, Hval.
    destruct l as [|a l]; [done|].
    pose proof (chain_NoDup _ _ _ Hch) as [Hnin _]%NoDup_cons.
    pose proof Hch as (Hh & n & Ha & Htl).
    rewrite (values_cons _ _ n _ Ha) in Hval.
    change (rev Test.pushed ++ values (heap (empty_list o)) [])
      with (100%Z :: 99%Z :: (Z.of_nat <$> rev (seq 1 98))) in Hval.
    injection Hval as _ Hval.
    pose proof (Forall_lookup_1 _ _ _ _ Hlive Ha) as Hd. cbv beta in Hd.
    pose proof (spurious_run_le_longest (spurious s)) as Hrun.
    exists s. eexists. exists a. split; [done|].
    rewrite (pop_front_closed_form fuel s a n Hh Ha), decide_True, Hd
      by (simpl in Ho; lia).
    split; [done|]. destruct l as [|b l]; [done|].
    rewrite !is_valid_closed_form. cbn [m_node_ptr heap].
    rewrite list_lookup_alter_eq, Ha, Hd. split_and!; try done.
    rewrite Hh in Hch. eapply (front_chain _ b l); cbn [heap m_head].
    + by eapply chain_pop_front.
    + rewrite values_pop_front by done. exact Hval.
Qed.

Lemma pop_front_correct_witness :
  spurious_run [true] < 2 ∧ longest_run [true; false; true] < 2 ∧
  m_head Test.three = Some 2 ∧
  heap Test.three !! 2 = Some (mk_node 3%Z false (Some 1)) ∧
  chain (heap Test.three) (m_head Test.three) [2; 1; 0] ∧
  (∃ s', pop_front 2 (set_spurious [true] Test.three) = Returns tt s' ∧
         (∃ n', heap s' !! 2 = Some n' ∧ m_deleted n' = true) ∧
         is_valid (mk_iterator (Some 2)) s' = Returns false s' ∧
         chain (heap s') (m_head s') [1; 0]) ∧
  (∃ s s', Test.after_push 2 [true; false; true] = Returns tt s ∧
           pop_front 2 s = Returns tt s' ∧
           Test.front s' = Returns 99%Z s').
Proof.
  assert (spurious_run [true] < 2) as Hrun by (simpl; lia).
  assert (longest_run [true; false; true] < 2) as Hlong by (simpl; lia).
  assert (chain (heap Test.three) (m_head Test.three) [2; 1; 0]) as Hch
    by compute_done.
  split_and!; try done.
  - destruct (proj1 pop_front_correct Z 2 (set_spurious [true] Test.three) 2
                (mk_node 3%Z false (Some 1)) Hrun eq_refl eq_refl)
      as (s' & Hs' & _ & _ & (n' & Hn' & Hmark & _) & Hv & _ & H).
    exists s'. split; [done|]. split; [by exists n'|]. split; [done|].
    by apply H.
  - destruct (proj2 pop_front_correct 2 [true; false; true] Hlong)
      as (s & s' & a & H1 & H2 & H3 & _).
    exists s, s'. split; [exact H1|]. split; [exact H2 | exact H3].
Defined.

(** C6.  Once a node is marked deleted it stays marked: a marked node is
    still marked in the state left by any list or iterator operation,
    whether the operation returned or threw, and by [mark_as_deleted]
    itself.  [mark_as_deleted] on a node returns true exactly when the flag
    of the node was not set, and then it has set it; it returns false when
    the flag was set, and then it has changed nothing.  Either way the
    flag is set afterwards, an iterator at the node is not valid, the value
    and the successor of the node, every other node, the head and the log
    are as before, and a second [mark_as_deleted] returns false. *)
Theorem deleted_is_final {T} :
  (∀ (op : operation T) a s s',
     tombstoned a s → final (run op s) = Some s' → tombstoned a s') ∧
  (∀ p a (s s' : state T),
     tombstoned a s → final (mark_as_deleted p s) = Some s' →
     tombstoned a s') ∧
  (∀ (s : state T) a n,
     heap s !! a = Some n →
     mark_as_deleted (Some a) s =
       (if m_deleted n then Returns false s
        else Returns true (set_heap (alter (with_deleted true) a) s)) ∧
     ∃ b s',
       mark_as_deleted (Some a) s = Returns b s' ∧
       (b = true ↔ m_deleted n = false) ∧
       (b = false → s' = s) ∧
       (∃ n', heap s' !! a = Some n' ∧ m_deleted n' = true ∧
              m_val n' = m_val n ∧ m_next n' = m_next n) ∧
       tombstoned a s' ∧
       is_valid (mk_iterator (Some a)) s' = Returns false s' ∧
       (∀ c, c ≠ a → heap s' !! c = heap s !! c) ∧
       m_head s' = m_head s ∧ trace s' = trace s ∧
       mark_as_deleted (Some a) s' = Returns false s').
Proof.
  split_and!.
  - intros op a s s' Ha Hs'. by eapply tombstoned_run.
  - intros p a s s' Ha Hs'.
    eapply (invariant_mark_as_deleted (tombstoned a)); try done.
    intros b s0. by apply tombstoned_alter.
  - intros s a n Ha. split; [by apply mark_as_deleted_Some|].
    rewrite (mark_as_deleted_Some s a n Ha).
    destruct (m_deleted n) eqn:Hd; do 2 eexists; (split; [reflexivity|]).
    + split_and!; try done.
      * by exists n.
      * by exists n.
      * rewrite is_valid_closed_form. cbn [m_node_ptr]. by rewrite Ha, Hd.
      * by rewrite (mark_as_deleted_Some s a n Ha), Hd.
    + assert (heap (set_heap (alter (with_deleted true) a) s) !! a
              = Some (with_deleted true n)) as Ha'
        by (simpl; by rewrite list_lookup_alter_eq, Ha).
      split_and!; try done.
      * by exists (with_deleted true n).
      * by exists (with_deleted true n).
      * rewrite is_valid_closed_form. cbn [m_node_ptr]. by rewrite Ha'.
      * intros c Hc. simpl. by rewrite list_lookup_alter_ne.
      * by rewrite (mark_as_deleted_Some _ a _ Ha').
Qed.

Lemma deleted_is_final_witness :
  tombstoned 2 Test.three_popped ∧
  (∃ s', final (run (op_erase_after (mk_iterator (Some 2))) Test.three_popped)
           = Some s' ∧ tombstoned 2 s') ∧
  (∃ s', final (run (op_assign (mk_iterator (Some 2)) 7%Z) Test.three_popped)
           = Some s' ∧ tombstoned 2 s') ∧
  mark_as_deleted (Some 2) Test.three_popped = Returns false Test.three_popped ∧
  heap Test.three !! 2 = Some (mk_node 3%Z false (Some 1)) ∧
  ∃ s', mark_as_deleted (Some 2) Test.three = Returns true s' ∧
        tombstoned 2 s' ∧
        is_valid (mk_iterator (Some 2)) s' = Returns false s' ∧
        mark_as_deleted (Some 2) s' = Returns false s'.
Proof.
  assert (tombstoned 2 Test.three_popped) as Ht by compute_done.
  split_and!; [done| | | | done |].
  - eexists. split; [reflexivity|].
    by apply (proj1 deleted_is_final (op_erase_after (mk_iterator (Some 2)))
                2 Test.three_popped).
  - eexists. split; [reflexivity|].
    by apply (proj1 deleted_is_final (op_assign (mk_iterator (Some 2)) 7%Z)
                2 Test.three_popped).
  - by apply (proj2 (proj2 deleted_is_final) Test.three_popped 2
                (mk_node 3%Z true (Some 1))).
  - destruct (proj2 (proj2 deleted_is_final) Test.three 2
                (mk_node 3%Z false (Some 1)) eq_refl)
      as (_ & b & s' & Hrun & Hb & _ & _ & Ht' & Hv & _ & _ & _ & Hagain).
    exists s'. destruct b; [done|]. by destruct (proj2 Hb).
Defined.

(** C7.  [is_valid] returns true exactly when the iterator refers to a node
    and that node is not marked deleted, and false exactly when it refers to
    no node or to a marked one.  When [erase_after pos] returns true it has
    removed the successor [x] of the node of [pos]; an iterator that refers
    to [x] is then not valid, and reading through it returns the value [x]
    held before, as it did before. *)
Theorem is_valid_correct {T} (s : state T) it :
  (is_valid it s = Returns true s ↔
     ∃ a n, m_node_ptr it = Some a ∧ heap s !! a = Some n ∧
            m_deleted n = false) ∧
  (is_valid it s = Returns false s ↔
     m_node_ptr it = None ∨
     ∃ a n, m_node_ptr it = Some a ∧ heap s !! a = Some n ∧
            m_deleted n = true) ∧
  (∀ pos s',
     erase_after pos s = Returns true s' →
     ∃ a n x nx,
       m_node_ptr pos = Some a ∧ heap s !! a = Some n ∧
       m_next n = Some x ∧ heap s !! x = Some nx ∧
       (m_node_ptr it = Some x →
          is_valid it s = Returns true s ∧
          is_valid it s' = Returns false s' ∧
          star it s = Returns (m_val nx) s ∧
          star it s' = Returns (m_val nx) s')).
Proof.
  split_and!.
  - rewrite is_valid_closed_form. split.
    + destruct (m_node_ptr it) as [a|]; [|done].
      destruct (heap s !! a) as [n|] eqn:Ha; [|done].
      intros [= Hd]. exists a, n. by destruct (m_deleted n).
    + intros (a & n & -> & -> & ->). done.
  - rewrite is_valid_closed_form. split.
    + destruct (m_node_ptr it) as [a|]; [|by left].
      destruct (heap s !! a) as [n|] eqn:Ha; [|done].
      intros [= Hd]. right. exists a, n. by destruct (m_deleted n).
    + intros [->|(a & n & -> & -> & ->)]; done.
  - intros pos s' (a & n & x & nx & Hp & Ha & Hn & Hx & Hdn & Hdx & _ & ->)
      %erase_after_true_inv.
    exists a, n, x, nx. split_and!; try done. intros Hit.
    destruct (lookup_relinked _ _ _ _ _ (m_next nx) Ha Hx)
      as (nx' & Hx' & Hdel & Hval).
    rewrite !is_valid_closed_form, !star_closed_form, Hit. simpl.
    rewrite Hx, list_lookup_alter_eq, Hx'. simpl. by rewrite Hdx, Hval.
Qed.

Lemma is_valid_correct_witness :
  erase_after (mk_iterator (Some 2)) Test.three
    = Returns true
        (mk_state [mk_node 1%Z false None; mk_node 2%Z true (Some 0);
                   mk_node 3%Z false (Some 0)]
                  (Some 2)
                  (trace Test.three
                     ++ [Acquire 2; Acquire 1; Release 1; Release 2]) []) ∧
  ∃ s', is_valid (mk_iterator (Some 1)) Test.three = Returns true Test.three ∧
        is_valid (mk_iterator (Some 1)) s' = Returns false s' ∧
        star (mk_iterator (Some 1)) s' = Returns 2%Z s'.
Proof.
  split; [reflexivity|]. eexists.
  destruct (proj2 (proj2 (is_valid_correct Test.three (mk_iterator (Some 1))))
              (mk_iterator (Some 2)) _ eq_refl)
    as (a & n & x & nx & Hp & Ha & Hn & Hx & H).
  simplify_eq/=. destruct (H eq_refl) as (H1 & H2 & _ & H4). done.
Defined.

(** C8, as the code has it.  [push_front], [clear] and [empty] take no node
    lock, in any state and for any number of attempts.  [pop_front] does
    take one.  Whenever it returns or throws, what it has done is this, in
    this order: it has exchanged the head, which was the node [a], for the
    successor of [a], with no lock held; then it has acquired the lock of
    [a]; then it has released it.  It has taken no other lock. *)
Theorem lock_usage {T} :
  (∀ fuel (val : T), lock_free (push_front fuel val)) ∧
  (∀ fuel, lock_free (@clear T fuel)) ∧
  lock_free (@empty T) ∧
  (∀ fuel (s : state T) evs,
     events s (pop_front fuel s) = Some evs →
     held_after [] evs = Some [] ∧
     ∃ a n, m_head s = Some a ∧ heap s !! a = Some n ∧
            evs = [Exchange (Some a) (m_next n); Acquire a; Release a]).
Proof.
  split_and!.
  - intros fuel val s evs. rewrite push_front_closed_form.
    case_decide; [|done].
    erewrite events_longer_trace by reflexivity.
    intros [= <-] a Hin. by apply list_elem_of_singleton in Hin.
  - intros fuel s evs. rewrite clear_closed_form.
    case_decide; [|done].
    erewrite events_longer_trace by reflexivity.
    intros [= <-] a Hin. by apply list_elem_of_singleton in Hin.
  - intros s evs. rewrite empty_closed_form, events_same_trace by done.
    intros [= <-] a Hin. by apply elem_of_nil in Hin.
  - intros fuel s evs. destruct fuel as [|fuel]; [done|].
    destruct s as [h [a|] tr o]; [|by rewrite pop_front_empty].
    destruct (h !! a) as [n|] eqn:Ha;
      [|by rewrite (pop_front_dangling _ _ a)].
    rewrite (pop_front_closed_form _ _ a n) by done.
    case_decide; [|done]. cbn [heap m_head trace spurious].
    intros Hev.
    rewrite (events_longer_trace _ _
               (mk_state (if m_deleted n then h
                          else alter (with_deleted true) a h)
                         (m_next n)
                         (tr ++ [Exchange (Some a) (m_next n);
                                 Acquire a; Release a])
                         (settle o))
               [Exchange (Some a) (m_next n); Acquire a; Release a]) in Hev;
      [|by destruct (m_deleted n)|done].
    injection Hev as <-. split.
    + simpl. by rewrite decide_True.
    + by exists a, n.
Qed.

Lemma lock_usage_witness :
  events Test.three (pop_front 1 Test.three)
    = Some [Exchange (Some 2) (Some 1); Acquire 2; Release 2] ∧
  held_after [] [Exchange (Some 2) (Some 1); Acquire 2; Release 2] = Some [] ∧
  ∃ a n, m_head Test.three = Some a ∧ heap Test.three !! a = Some n ∧
         [Exchange (Some 2) (Some 1); Acquire 2; Release 2]
           = [Exchange (Some a) (m_next n); Acquire a; Release a].
Proof.
  split; [reflexivity|].
  by apply (proj2 (proj2 (proj2 lock_usage)) 1 Test.three).
Defined.

(** C8, as the claim states it, fails: [pop_front] on the three-node list
    acquires the lock of the node it detaches. *)
Lemma pop_front_takes_a_lock :
  events Test.three (pop_front 1 Test.three)
    = Some [Exchange (Some 2) (Some 1); Acquire 2; Release 2] ∧
  ¬ lock_free (@pop_front Z 1).
Proof.
  split; [reflexivity|]. intros H.
  apply (H Test.three [Exchange (Some 2) (Some 1); Acquire 2; Release 2]
           eq_refl 2).
  right. by left.
Qed.

(** C9.  [insert_after] at the end position does not return false: it goes
    through the empty pointer of the position, where [erase_after] returns
    false and leaves the state alone.  At a position that refers to a node
    of the store [insert_after] returns. *)
Theorem insert_after_needs_a_node {T} (s : state T) pos (val : T) :
  (m_node_ptr pos = None →
     insert_after pos val s = Undefined null_dereference ∧
     erase_after pos s = Returns false s) ∧
  (m_node_ptr pos ≠ None → allocated (heap s) (m_node_ptr pos) →
     ∃ b s', insert_after pos val s = Returns b s').
Proof.
  split.
  - intros Hp. split; [by apply insert_after_end | by apply erase_after_end].
  - intros Hne Hal. destruct (m_node_ptr pos) as [a|] eqn:Hp; [|done].
    destruct (allocated_lookup _ _ Hal) as [n Ha].
    rewrite (insert_after_closed_form pos val s a n Hp Ha). simpl.
    destruct (m_deleted n); eauto.
Qed.

Lemma insert_after_needs_a_node_witness :
  m_node_ptr end_ = None ∧
  insert_after end_ 5%Z Test.three = Undefined null_dereference ∧
  erase_after end_ Test.three = Returns false Test.three ∧
  m_node_ptr (mk_iterator (Some 0)) ≠ None ∧
  allocated (heap Test.three) (Some 0) ∧
  ∃ b s', insert_after (mk_iterator (Some 0)) 5%Z Test.three = Returns b s'.
Proof.
  assert (allocated (heap Test.three) (Some 0)) as Hal by compute_done.
  destruct (proj1 (insert_after_needs_a_node Test.three end_ 5%Z) eq_refl)
    as [H1 H2].
  split_and!; try done.
  by apply (proj2 (insert_after_needs_a_node Test.three
                     (mk_iterator (Some 0)) 5%Z)).
Defined.

(** C10.  Given more attempts than the failures that come first, [clear]
    returns with an empty head and the store it started from: no node has
    changed, so no deletion marker has.  Whatever [is_valid] and
    [operator*] returned through an iterator before the call they return
    after it; in particular an iterator that was valid still is, although
    the list is now empty. *)
Theorem clear_keeps_nodes {T} fuel (s : state T) :
  spurious_run (spurious s) < fuel →
  ∃ s', clear fuel s = Returns tt s' ∧
    m_head s' = None ∧ chain (heap s') (m_head s') [] ∧
    heap s' = heap s ∧
    (∀ a n, heap s !! a = Some n → m_deleted n = false →
            ∃ n', heap s' !! a = Some n' ∧ m_deleted n' = false) ∧
    (∀ it b, is_valid it s = Returns b s → is_valid it s' = Returns b s') ∧
    (∀ it v, star it s = Returns v s → star it s' = Returns v s').
Proof.
  intros Hfuel. eexists.
  rewrite clear_closed_form, decide_True by done. split; [done|].
  split_and!; try done.
  - intros a n Ha Hd. by exists n.
  - intros it b. rewrite !is_valid_closed_form. simpl.
    destruct (m_node_ptr it) as [a|]; [|by intros [= <-]].
    destruct (heap s !! a); [|done]. by intros [= <-].
  - intros it v. rewrite !star_closed_form. simpl.
    destruct (m_node_ptr it) as [a|]; [|done].
    destruct (heap s !! a); [|done]. by intros [= <-].
Qed.

Lemma clear_keeps_nodes_witness :
  spurious_run [true; true] < 3 ∧
  is_valid (mk_iterator (Some 1)) (set_spurious [true; true] Test.three)
    = Returns true (set_spurious [true; true] Test.three) ∧
  star (mk_iterator (Some 1)) (set_spurious [true; true] Test.three)
    = Returns 2%Z (set_spurious [true; true] Test.three) ∧
  ∃ s', clear 3 (set_spurious [true; true] Test.three) = Returns tt s' ∧
        is_valid (mk_iterator (Some 1)) s' = Returns true s' ∧
        star (mk_iterator (Some 1)) s' = Returns 2%Z s'.
Proof.
  assert (spurious_run [true; true] < 3) as Hrun by (simpl; lia).
  split; [done|]. split; [reflexivity|]. split; [reflexivity|].
  destruct (clear_keeps_nodes 3 (set_spurious [true; true] Test.three) Hrun)
    as (s' & Hs' & _ & _ & _ & _ & Hv & Hd).
  exists s'. split; [done|]. split; [by apply Hv | by apply Hd].
Defined.

(** * Further properties *)

Section MoreProofs.
Context {T : Type}.
Implicit Types (s : state T) (h : list (list_node T)) (n : list_node T).
Implicit Types (p q : pointer) (a b d : addr) (l : list addr).
Implicit Types (it pos : iterator) (tr : list event) (o : list bool).

(** ** Marks and links under the writes to the store *)

Lemma unmarked_snoc h n b :
  unmarked (h ++ [n]) b ↔
  unmarked h b ∨ (b = length h ∧ m_deleted n = false).
Proof.
  unfold unmarked. split.
  - intros (nb & [Hb|[Hlen Hb]]%lookup_app_Some & Hd); [left; eauto|right].
    destruct (b - length h) as [|k] eqn:Hk; simplify_eq/=.
    split; [lia|done].
  - intros [(nb & Hb & Hd)|[-> Hd]].
    + exists nb. split; [by apply lookup_app_l_Some|done].
    + exists n. split; [by apply list_lookup_middle|done].
Qed.

Lemma live_link_snoc h n a b :
  live_link (h ++ [n]) a b ↔
  live_link h a b ∨
  (a = length h ∧ m_deleted n = false ∧ m_next n = Some b).
Proof.
  unfold live_link. split.
  - intros (na & [Ha|[Hlen Ha]]%lookup_app_Some & Hd & Hn);
      [left; eauto|right].
    destruct (a - length h) as [|k] eqn:Hk; simplify_eq/=.
    split; [lia|done].
  - intros [(na & Ha & Hd & Hn)|(-> & Hd & Hn)].
    + exists na. split; [by apply lookup_app_l_Some|done].
    + exists n. split; [by apply list_lookup_middle|done].
Qed.

Lemma unmarked_alter (f : list_node T → list_node T) h a0 n0 b :
  h !! a0 = Some n0 →
  unmarked (alter f a0 h) b ↔
  (b ≠ a0 ∧ unmarked h b) ∨ (b = a0 ∧ m_deleted (f n0) = false).
Proof.
  intros H0. unfold unmarked. destruct (decide (b = a0)) as [->|Hne].
  - rewrite list_lookup_alter_eq, H0. simpl. split.
    + intros (n & [= <-] & Hd). by right.
    + intros [[? _]|[_ Hd]]; [done|eauto].
  - rewrite list_lookup_alter_ne by done. split.
    + intros H. by left.
    + by intros [[_ H]|[? _]].
Qed.

Lemma live_link_alter (f : list_node T → list_node T) h a0 n0 a b :
  h !! a0 = Some n0 →
  live_link (alter f a0 h) a b ↔
  (a ≠ a0 ∧ live_link h a b) ∨
  (a = a0 ∧ m_deleted (f n0) = false ∧ m_next (f n0) = Some b).
Proof.
  intros H0. unfold live_link. destruct (decide (a = a0)) as [->|Hne].
  - rewrite list_lookup_alter_eq, H0. simpl. split.
    + intros (n & [= <-] & Hd). by right.
    + intros [[? _]|[_ Hd]]; [done|eauto].
  - rewrite list_lookup_alter_ne by done. split.
    + intros H. by left.
    + by intros [[_ H]|[? _]].
Qed.

Lemma unmarked_allocated h b : unmarked h b → b < length h.
Proof. intros (n & Hb & _). by eapply lookup_lt_Some. Qed.

Lemma live_link_allocated h a b : live_link h a b → a < length h.
Proof. intros (n & Ha & _). by eapply lookup_lt_Some. Qed.

(** ** The writes keep the marks sound *)

Lemma sound_empty o : sound (@empty_list T o).
Proof.
  split; simpl.
  - apply closed_empty_list.
  - by exists [].
  - done.
  - by intros a b (n & Hn & _).
  - by intros a b (n & Hn & _).
  - by intros a a' b (n & Hn & _).
Qed.

Lemma sound_push h hd tr o (val : T) tr' o' :
  sound (mk_state h hd tr o) →
  closed (mk_state (h ++ [mk_node val false hd]) (Some (length h)) tr' o') →
  sound (mk_state (h ++ [mk_node val false hd]) (Some (length h)) tr' o').
Proof.
  intros [Hc [l Hch] Hhead Hlink Hentry Hshare] Hc'. simpl in *.
  split; simpl.
  - done.
  - exists (length h :: l). by apply chain_push_front.
  - intros a [= <-]. apply unmarked_snoc. by right.
  - intros a b [Hab|(-> & _ & Hb)]%live_link_snoc; apply unmarked_snoc; left.
    + by eapply Hlink.
    + by apply Hhead.
  - intros a b Hab [= <-]. apply live_link_snoc in Hab as [Hab|(_ & _ & Hb)].
    + apply Hlink, unmarked_allocated in Hab. lia.
    + apply Hhead, unmarked_allocated in Hb. lia.
  - intros a a' b [Hab|(-> & _ & Hb)]%live_link_snoc
      [Hab'|(-> & _ & Hb')]%live_link_snoc; simpl in *; try done.
    + by eapply Hshare.
    + by destruct (Hentry _ _ Hab).
    + by destruct (Hentry _ _ Hab').
Qed.

Lemma sound_pop h a0 n0 tr o tr' o' :
  sound (mk_state h (Some a0) tr o) → h !! a0 = Some n0 →
  closed (mk_state (alter (with_deleted true) a0 h) (m_next n0) tr' o') →
  sound (mk_state (alter (with_deleted true) a0 h) (m_next n0) tr' o').
Proof.
  intros [Hc [l Hch] Hhead Hlink Hentry Hshare] H0 Hc'. simpl in *.
  destruct (Hhead a0 eq_refl) as (n0' & H0' & Hd0). simplify_eq.
  assert (∀ b, unmarked (alter (with_deleted true) a0 h) b ↔
               b ≠ a0 ∧ unmarked h b) as Hun.
  { intros b. rewrite (unmarked_alter _ _ _ n0) by done. simpl.
    split; [by intros [?|[_ ?]] | by left]. }
  assert (∀ a b, live_link (alter (with_deleted true) a0 h) a b ↔
                 a ≠ a0 ∧ live_link h a b) as Hli.
  { intros a b. rewrite (live_link_alter _ _ _ n0) by done. simpl.
    split; [by intros [?|(_ & ? & _)] | by left]. }
  assert (∀ b, m_next n0 = Some b → live_link h a0 b) as Hfirst
    by (intros b Hb; by exists n0).
  split; simpl.
  - done.
  - destruct l as [|a l]; [done|]. pose proof Hch as ([= <-] & _).
    exists l. by apply chain_pop_front.
  - intros b Hb. apply Hun. split.
    + intros ->. by destruct (Hentry _ _ (Hfirst _ Hb)).
    + by eapply Hlink, Hfirst.
  - intros a b [Hne Hab]%Hli. apply Hun. split; [|by eapply Hlink].
    intros ->. by destruct (Hentry _ _ Hab).
  - intros a b [Hne Hab]%Hli Hb. apply Hne.
    by apply (Hshare _ _ b Hab (Hfirst _ Hb)).
  - intros a a' b [_ Hab]%Hli [_ Hab']%Hli. by eapply Hshare.
Qed.

Lemma sound_clear h hd tr o tr' o' :
  sound (mk_state h hd tr o) → sound (mk_state h None tr' o').
Proof.
  intros [[_ Hall] _ Hhead Hlink Hentry Hshare]. simpl in *.
  split; simpl; [done | by exists [] | done..].
Qed.

Lemma sound_insert_refused h hd tr o (val : T) tr' o' :
  sound (mk_state h hd tr o) →
  closed (mk_state (h ++ [mk_node val false None]) hd tr' o') →
  sound (mk_state (h ++ [mk_node val false None]) hd tr' o').
Proof.
  intros [Hc [l Hch] Hhead Hlink Hentry Hshare] Hc'. simpl in *.
  split; simpl.
  - done.
  - exists l. eapply lseg_ext; [|exact Hch]. intros b Hb.
    by rewrite lookup_app_l by (eapply lseg_allocated; eauto).
  - intros a Ha. apply unmarked_snoc. left. by apply Hhead.
  - intros a b [Hab|(_ & _ & ?)]%live_link_snoc; [|done].
    apply unmarked_snoc. left. by eapply Hlink.
  - intros a b [Hab|(_ & _ & ?)]%live_link_snoc; [|done]. by eapply Hentry.
  - intros a a' b [Hab|(_ & _ & ?)]%live_link_snoc
      [Hab'|(_ & _ & ?)]%live_link_snoc; try done.
    by eapply Hshare.
Qed.

Lemma sound_insert h hd tr o a0 n0 (val : T) tr' o' :
  sound (mk_state h hd tr o) → h !! a0 = Some n0 → m_deleted n0 = false →
  let h' := alter (with_next (Some (length h))) a0 h
              ++ [mk_node val false (m_next n0)] in
  closed (mk_state h' hd tr' o') → sound (mk_state h' hd tr' o').
Proof.
  intros [Hc [l Hch] Hhead Hlink Hentry Hshare] H0 Hd0 h' Hc'. simpl in *.
  assert (∀ b, unmarked h' b ↔ unmarked h b ∨ b = length h) as Hun.
  { intros b. unfold h'.
    rewrite unmarked_snoc, (unmarked_alter _ _ _ n0), length_alter by done.
    simpl. split.
    - intros [[[_ ?]|[-> _]]|[-> _]]; [by left| |by right].
      left. by exists n0.
    - intros [Hb| ->]; [|by right]. left.
      destruct (decide (b = a0)) as [->|]; [by right | by left]. }
  assert (∀ a b, live_link h' a b ↔
                 (a ≠ a0 ∧ live_link h a b) ∨ (a = a0 ∧ b = length h) ∨
                 (a = length h ∧ m_next n0 = Some b)) as Hli.
  { intros a b. unfold h'.
    rewrite live_link_snoc, (live_link_alter _ _ _ n0), length_alter by done.
    simpl. split.
    - intros [[?|(-> & _ & [= <-])]|(-> & _ & ?)]; eauto.
    - intros [?|[[-> ->]|[-> ?]]]; eauto 6. }
  assert (∀ b, m_next n0 = Some b → live_link h a0 b) as Hold
    by (intros b Hb; by exists n0).
  assert (¬ unmarked h (length h)) as Hfresh
    by (intros Hf%unmarked_allocated; lia).
  split; simpl.
  - done.
  - destruct (decide (a0 ∈ l)) as [(l1 & l2 & ->)%list_elem_of_split|Hnin].
    + exists (l1 ++ a0 :: length h :: l2). by apply chain_insert_after.
    + exists l. eapply lseg_ext; [|exact Hch]. intros b Hb. unfold h'.
      rewrite lookup_app_l
        by (rewrite length_alter; eapply lseg_allocated; eauto).
      rewrite list_lookup_alter_ne; [done|]. by intros ->.
  - intros a Ha. apply Hun. left. by apply Hhead.
  - intros a b [[_ Hab]|[[_ ->]|[_ Hb]]]%Hli; apply Hun.
    + left. by eapply Hlink.
    + by right.
    + left. by eapply Hlink, Hold.
  - intros a b [[_ Hab]|[[_ ->]|[_ Hb]]]%Hli.
    + by eapply Hentry.
    + intros Hh. by apply Hfresh, Hhead.
    + by eapply Hentry, Hold.
  - intros a a' b [[Hne Hab]|[[-> ->]|[-> Hb]]]%Hli
      [[Hne' Hab']|[[-> Hb']|[-> Hb']]]%Hli; try done.
    + by eapply Hshare.
    + subst b. by destruct Hfresh; eapply Hlink.
    + by destruct Hne; eapply Hshare, Hold.
    + by destruct Hfresh; eapply Hlink.
    + by destruct Hfresh; eapply Hlink, Hold.
    + by destruct Hne'; eapply Hshare, Hold.
    + subst b. by destruct Hfresh; eapply Hlink, Hold.
Qed.

Lemma sound_erase h hd tr o a0 n0 d nd tr' o' :
  sound (mk_state h hd tr o) → h !! a0 = Some n0 → m_deleted n0 = false →
  m_next n0 = Some d → h !! d = Some nd →
  let h' := alter (with_deleted true) d
              (alter (with_next (m_next nd)) a0 h) in
  closed (mk_state h' hd tr' o') → sound (mk_state h' hd tr' o').
Proof.
  intros [Hc [l Hch] Hhead Hlink Hentry Hshare] H0 Hd0 Hn0 Hd h' Hc'.
  simpl in *.
  assert (live_link h a0 d) as Hold by (by exists n0).
  assert (m_deleted nd = false) as Hdd.
  { destruct (Hlink _ _ Hold) as (nd' & ? & ?). by simplify_eq. }
  assert (∃ nd', alter (with_next (m_next nd)) a0 h !! d = Some nd' ∧
                 m_next nd' = m_next nd) as (nd' & Hd' & Hnd').
  { destruct (decide (a0 = d)) as [<-|Hne].
    - rewrite list_lookup_alter_eq, H0. simplify_eq. by eexists.
    - rewrite list_lookup_alter_ne by done. by eexists. }
  assert (∀ b, unmarked h' b ↔ b ≠ d ∧ unmarked h b) as Hun.
  { intros b. unfold h'.
    rewrite (unmarked_alter _ _ _ nd'), (unmarked_alter _ _ _ n0) by done.
    simpl. split.
    - intros [[? [[_ ?]|[-> _]]]|[_ ?]]; [done| |done].
      split; [done|]. by exists n0.
    - intros [? Hb]. left. split; [done|].
      destruct (decide (b = a0)) as [->|]; [by right | by left]. }
  assert (∀ a b, live_link h' a b ↔
                 a ≠ d ∧ ((a ≠ a0 ∧ live_link h a b) ∨
                          (a = a0 ∧ m_next nd = Some b))) as Hli.
  { intros a b. unfold h'.
    rewrite (live_link_alter _ _ _ nd'), (live_link_alter _ _ _ n0) by done.
    simpl. split.
    - intros [[? [?|(-> & _ & ?)]]|(_ & ? & _)]; [eauto..|done].
    - intros [? [?|[-> ?]]]; left; eauto. }
  assert (∀ b, m_next nd = Some b → live_link h d b) as Hnext
    by (intros b Hb; by exists nd).
  split; simpl.
  - done.
  - destruct (decide (a0 ∈ l)) as [(l1 & l2 & ->)%list_elem_of_split|Hnin].
    + pose proof Hch as (q & _ & _ & n & Hn & Htl)%lseg_app. simplify_eq.
      rewrite Hn0 in Htl. destruct l2 as [|d' l2]; [done|].
      pose proof Htl as ([= <-] & _).
      exists (l1 ++ a0 :: l2). by eapply chain_erase_after.
    + exists l. eapply lseg_ext; [|exact Hch]. intros b Hb. unfold h'.
      assert (b ≠ a0) as Hne by (by intros ->).
      destruct (decide (d = b)) as [->|Hnd].
      * rewrite list_lookup_alter_eq, list_lookup_alter_ne by done.
        by destruct (h !! b).
      * by rewrite !list_lookup_alter_ne.
  - intros a Ha. apply Hun. split; [|by apply Hhead].
    intros ->. by destruct (Hentry _ _ Hold).
  - intros a b [Had [[Hne Hab]|[-> Hb]]]%Hli; apply Hun.
    + split; [|by eapply Hlink]. intros ->. apply Hne. by eapply Hshare.
    + split; [|by eapply Hlink, Hnext]. intros ->. apply Had.
      by apply (Hshare _ _ d Hold), Hnext.
  - intros a b [_ [[_ Hab]|[_ Hb]]]%Hli.
    + by eapply Hentry.
    + by eapply Hentry, Hnext.
  - intros a a' b [Had [[Hne Hab]|[-> Hb]]]%Hli
      [Had' [[Hne' Hab']|[-> Hb']]]%Hli; try done.
    + by eapply Hshare.
    + destruct Had. by eapply Hshare, Hnext.
    + destruct Had'. by eapply Hshare, Hnext.
Qed.

(** A write that keeps the mark and the successor of the node keeps the
    marks sound. *)
Lemma sound_alter (f : list_node T → list_node T) a0 h hd tr o tr' o' :
  (∀ n, m_deleted (f n) = m_deleted n) → (∀ n, m_next (f n) = m_next n) →
  sound (mk_state h hd tr o) →
  closed (mk_state (alter f a0 h) hd tr' o') →
  sound (mk_state (alter f a0 h) hd tr' o').
Proof.
  intros Hfd Hfn [Hc [l Hch] Hhead Hlink Hentry Hshare] Hc'. simpl in *.
  assert (∀ b, unmarked (alter f a0 h) b ↔ unmarked h b) as Hun.
  { intros b. unfold unmarked. destruct (decide (a0 = b)) as [->|Hne].
    - rewrite list_lookup_alter_eq. destruct (h !! b) as [n|]; simpl.
      + split; [intros (? & [= <-] & ?)|intros (? & [= <-] & ?)];
          eexists; split; try done; by rewrite ?Hfd in *.
      + by split; intros (? & ? & _).
    - by rewrite list_lookup_alter_ne. }
  assert (∀ a b, live_link (alter f a0 h) a b ↔ live_link h a b) as Hli.
  { intros a b. unfold live_link. destruct (decide (a0 = a)) as [->|Hne].
    - rewrite list_lookup_alter_eq. destruct (h !! a) as [n|]; simpl.
      + split; [intros (? & [= <-] & ? & ?)|intros (? & [= <-] & ? & ?)];
          eexists; split; try done; by rewrite ?Hfd, ?Hfn in *.
      + by split; intros (? & ? & _).
    - by rewrite list_lookup_alter_ne. }
  split; simpl.
  - done.
  - exists l. eapply lseg_ext; [|exact Hch]. intros b Hb.
    destruct (decide (a0 = b)) as [->|Hne].
    + rewrite list_lookup_alter_eq. destruct (h !! b); simpl; [|done].
      by rewrite Hfn.
    + by rewrite list_lookup_alter_ne.
  - intros a Ha. by apply Hun, Hhead.
  - intros a b Hab%Hli. by eapply Hun, Hlink.
  - intros a b Hab%Hli. by eapply Hentry.
  - intros a a' b Hab%Hli Hab'%Hli. by eapply Hshare.
Qed.

(** ** The remaining iterator operations in closed form *)

Lemma incr_closed_form it s :
  incr it s =
    match m_node_ptr it with
    | None => Undefined null_dereference
    | Some a =>
        match heap s !! a with
        | Some n => Returns (mk_iterator (m_next n)) s
        | None => Undefined dangling_reference
        end
    end.
Proof.
  unfold incr, get_next, bind, deref, ret.
  destruct (m_node_ptr it) as [a|]; [|done]. by destruct (heap s !! a).
Qed.

Lemma assign_closed_form it (val : T) s :
  assign it val s =
    match m_node_ptr it with
    | None => Undefined null_dereference
    | Some a =>
        match heap s !! a with
        | Some n => Returns tt (set_heap (alter (with_val val) a) s)
        | None => Undefined dangling_reference
        end
    end.
Proof.
  unfold assign, bind, deref, modify.
  destruct (m_node_ptr it) as [a|]; [|done]. by destruct (heap s !! a).
Qed.

(** ** Every operation keeps the marks sound, and none throws *)

(** What a public operation does to a sound state in which no node
    reaches itself: it returns in a sound state, or it goes through an
    empty pointer, or it runs out of attempts. *)
Lemma run_sound (op : operation T) s :
  sound s → acyclic (heap s) → allocated (heap s) (position op) →
  (∃ s', run op s = Returns tt s' ∧ sound s') ∨
  run op s = Undefined null_dereference ∨ run op s = Spins.
Proof.
  intros Hs Hac Hp. pose proof (sound_closed _ Hs) as Hc.
  assert (∀ s', final (run op s) = Some s' → closed s') as Hc'
    by (intros s'; by apply closed_run).
  destruct s as [h hd tr o].
  destruct op as [fuel val|fuel|fuel|pos val|pos| | |it|it|it val|it];
    simpl in Hp; simpl run in *.
  - rewrite push_front_closed_form in *. case_decide; [|by right; right].
    left. eexists. split; [done|]. simpl. eapply sound_push; [done|].
    by apply Hc'.
  - destruct hd as [a|];
      [|right; destruct fuel; [by right | by left]].
    destruct (allocated_lookup h a (proj1 Hc)) as [n Ha].
    destruct (sound_head _ Hs a eq_refl) as (n' & Ha' & Hd). simplify_eq/=.
    rewrite (pop_front_closed_form _ _ a n) in * by done.
    case_decide; [|by right; right]. simpl in *. rewrite Hd in *.
    left. eexists. split; [done|]. eapply sound_pop; [done..|].
    by apply Hc'.
  - rewrite clear_closed_form in *. case_decide; [|by right; right].
    left. eexists. split; [done|]. by eapply sound_clear.
  - unfold forget, bind in *.
    destruct (m_node_ptr pos) as [a|] eqn:Hpos;
      [|right; left; by rewrite insert_after_end].
    destruct (allocated_lookup h a Hp) as [n Ha].
    rewrite (insert_after_closed_form pos val _ a n) in * by done.
    simpl in *. left. destruct (m_deleted n) eqn:Hd; simpl in *;
      (eexists; split; [done|]).
    + eapply sound_insert_refused; [done|]. by apply Hc'.
    + eapply sound_insert; [done..|]. by apply Hc'.
  - unfold forget, bind in *. left.
    destruct (erase_after_cases _ pos Hc Hp)
      as [[_ Hr] | [(a & n & _ & _ & _ & Hr)
                   | (a & n & d & nd & Hpos & Ha & Hn & Hd & Hr)]];
      rewrite Hr in *; simpl in *; try by eexists.
    destruct (m_deleted n) eqn:Hdn; simpl in *.
    + eexists. split; [done|]. split; apply Hs.
    + assert (m_deleted nd = false) as Hdd.
      { destruct (sound_link _ Hs a d) as (nd' & ? & ?); [by exists n|].
        by simplify_eq/=. }
      assert (d ≠ a) as Hne
        by (intros ->; by apply (acyclic_no_self_loop h a n)).
      rewrite decide_False in * by done.
      rewrite Hdd in *. simpl in *. eexists. split; [done|].
      eapply sound_erase; [done..|]. by apply Hc'.
  - left. by eexists.
  - left. by eexists.
  - unfold forget, bind. rewrite is_valid_closed_form. simpl in *.
    destruct (m_node_ptr it) as [a|]; [|left; by eexists].
    destruct (allocated_lookup h a Hp) as [n ->]. left. by eexists.
  - unfold forget, bind. rewrite star_closed_form. simpl in *.
    destruct (m_node_ptr it) as [a|]; [|by right; left].
    destruct (allocated_lookup h a Hp) as [n ->]. left. by eexists.
  - rewrite assign_closed_form in *. simpl in *.
    destruct (m_node_ptr it) as [a|]; [|by right; left].
    destruct (allocated_lookup h a Hp) as [n Ha]. rewrite Ha in *.
    left. eexists. split; [done|]. simpl.
    eapply (sound_alter _ _ _ _ tr o); [done..|]. by apply Hc'.
  - unfold forget, bind. rewrite incr_closed_form. simpl in *.
    destruct (m_node_ptr it) as [a|]; [|by right; left].
    destruct (allocated_lookup h a Hp) as [n ->]. left. by eexists.
Qed.

Lemma reachable_sound s : reachable s → sound s.
Proof.
  induction 1 as [o|s op s' Hre IH Hp Hfin]; [apply sound_empty|].
  destruct (reachable_acyclic s Hre) as [_ Hac].
  destruct (run_sound op s IH Hac Hp) as [(s'' & Hr & Hs)|[Hr|Hr]];
    rewrite Hr in Hfin; by simplify_eq/=.
Qed.

Lemma sound_chain_unmarked s p l a :
  sound s → lseg (heap s) p l None →
  (∀ b, p = Some b → unmarked (heap s) b) →
  a ∈ l → unmarked (heap s) a.
Proof.
  intros Hs. revert p. induction l as [|b l IH]; intros p Hch Hp Hin.
  - by apply elem_of_nil in Hin.
  - destruct Hch as (-> & n & Hb & Htl).
    pose proof (Hp b eq_refl) as (n' & Hb' & Hd). simplify_eq.
    apply elem_of_cons in Hin as [->|Hin]; [by exists n|].
    apply (IH (m_next n)); [done| |done].
    intros c Hc. apply (sound_link _ Hs b). by exists n.
Qed.

Lemma is_valid_unmarked s a :
  unmarked (heap s) a → is_valid (mk_iterator (Some a)) s = Returns true s.
Proof.
  intros (n & Ha & Hd). rewrite is_valid_closed_form. simpl.
  by rewrite Ha, Hd.
Qed.

Lemma reachable_three : reachable Test.three.
Proof.
  eapply (reachable_step _ (op_push_front 1 3%Z));
    [eapply (reachable_step _ (op_push_front 1 2%Z));
       [eapply (reachable_step _ (op_push_front 1 1%Z));
          [apply (reachable_empty []) | done | reflexivity]
       | done | reflexivity]
    | done | reflexivity].
Qed.

End MoreProofs.

(** X1.  No operation makes a pointer dangle: from a store in which the
    head and every successor pointer are empty or refer to a node, an
    operation at a position that refers to a node leaves such a store,
    whether it returns or throws. *)
Theorem store_stays_closed {T} (op : operation T) s s' :
  closed s → allocated (heap s) (position op) →
  final (run op s) = Some s' → closed s'.
Proof. apply closed_run. Qed.

Lemma store_stays_closed_witness :
  closed Test.three ∧
  allocated (heap Test.three)
    (position (op_erase_after (T := Z) (mk_iterator (Some 2)))) ∧
  ∃ s', final (run (op_erase_after (mk_iterator (Some 2))) Test.three)
          = Some s' ∧ closed s'.
Proof.
  assert (closed Test.three) as Hc by compute_done.
  split; [done|]. split; [compute_done|].
  eexists. split; [reflexivity|].
  eapply (store_stays_closed (op_erase_after (mk_iterator (Some 2))));
    [exact Hc | compute_done | reflexivity].
Defined.

(** X2.  Every state that one thread reaches from a default-constructed
    list is sound: no pointer dangles, the list is a chain that ends, the
    head and the successor of every unmarked node are unmarked, and an
    unmarked node has at most one unmarked predecessor, and none when it is
    the head. *)
Theorem reachable_is_sound {T} (s : state T) : reachable s → sound s.
Proof. apply reachable_sound. Qed.

Lemma reachable_is_sound_witness : reachable Test.three ∧ sound Test.three.
Proof.
  split; [apply reachable_three|].
  apply reachable_is_sound, reachable_three.
Defined.

(** X3.  One thread never sees the fatal fault: in a state reached from a
    default-constructed list, no operation at a position that refers to a
    node throws; it returns, in a state that is reached in turn, or goes
    through an empty pointer, or runs out of attempts.  [pop_front] on a
    non-empty list, given more attempts than the failures that come first,
    returns. *)
Theorem sequential_run_never_throws {T} (op : operation T) s :
  reachable s → allocated (heap s) (position op) →
  (∀ s', run op s ≠ Throws s') ∧
  ((∃ s', run op s = Returns tt s' ∧ reachable s') ∨
   run op s = Undefined null_dereference ∨ run op s = Spins) ∧
  (∀ fuel, m_head s ≠ None → spurious_run (spurious s) < fuel →
           ∃ s', pop_front fuel s = Returns tt s').
Proof.
  intros Hr Hp. pose proof (reachable_sound s Hr) as Hs.
  destruct (reachable_acyclic s Hr) as [_ Hac]. split_and!.
  - destruct (run_sound op s Hs Hac Hp) as [(s' & Hrun & _)|[Hrun|Hrun]];
      by rewrite Hrun.
  - destruct (run_sound op s Hs Hac Hp) as [(s' & Hrun & _)|[Hrun|Hrun]];
      rewrite Hrun; [left|by right; left|by right; right].
    exists s'. split; [done|].
    apply (reachable_step s op); [done..|]. by rewrite Hrun.
  - intros fuel Hh Hfuel.
    destruct (sound_closed _ Hs) as [Hhead _].
    destruct s as [h [a|] tr o]; [|done].
    destruct (allocated_lookup h a Hhead) as [n Ha].
    destruct (sound_head _ Hs a eq_refl) as (n' & Ha' & Hd). simplify_eq/=.
    rewrite (pop_front_closed_form _ _ a n), decide_True by done.
    simpl. rewrite Hd. by eexists.
Qed.

Lemma sequential_run_never_throws_witness :
  reachable Test.three ∧
  allocated (heap Test.three)
    (position (op_erase_after (T := Z) (mk_iterator (Some 1)))) ∧
  (∀ s', run (op_erase_after (mk_iterator (Some 1))) Test.three ≠ Throws s') ∧
  ∃ s', pop_front 1 Test.three = Returns tt s'.
Proof.
  pose proof reachable_three as Hr.
  split; [done|]. split; [compute_done|]. split.
  - apply (sequential_run_never_throws
             (op_erase_after (mk_iterator (Some 1))) Test.three Hr).
    compute_done.
  - apply (sequential_run_never_throws (op_pop_front 1) Test.three Hr I);
      [done | simpl; lia].
Defined.

(** X4.  For one thread [erase_after] is total and never throws: in a
    reached state, at a position that is the end or refers to a node, it
    returns, and it returns true exactly when the position refers to an
    unmarked node that has a successor. *)
Theorem erase_after_sequential {T} (s : state T) pos :
  reachable s → allocated (heap s) (m_node_ptr pos) →
  ∃ b s', erase_after pos s = Returns b s' ∧
    (b = true ↔
     ∃ a n, m_node_ptr pos = Some a ∧ heap s !! a = Some n ∧
            m_deleted n = false ∧ m_next n ≠ None).
Proof.
  intros Hre Hp. pose proof (reachable_sound s Hre) as Hs.
  destruct (erase_after_cases s pos (sound_closed _ Hs) Hp)
    as [[Hpos Hr] | [(a & n & Hpos & Ha & Hn & Hr)
                    | (a & n & d & nd & Hpos & Ha & Hn & Hd & Hr)]];
    rewrite Hr.
  - do 2 eexists. split; [done|]. split; [done|].
    intros (a & n & ? & _). congruence.
  - do 2 eexists. split; [done|]. split; [done|].
    intros (a' & n' & ? & ? & _ & ?). by simplify_eq.
  - destruct (m_deleted n) eqn:Hdn.
    + do 2 eexists. split; [done|]. split; [done|].
      intros (a' & n' & ? & ? & ? & _). simplify_eq. congruence.
    + assert (m_deleted nd = false) as Hdd.
      { destruct (sound_link _ Hs a d) as (nd' & ? & ?); [by exists n|].
        by simplify_eq. }
      assert (d ≠ a) as Hne
        by (intros ->; by apply (reachable_no_self_loop s a n)).
      cbv iota zeta. rewrite decide_False, Hdd by done.
      do 2 eexists. split; [done|]. split; [|done].
      intros _. exists a, n. split_and!; try done. by rewrite Hn.
Qed.

Lemma erase_after_sequential_witness :
  reachable Test.three ∧ allocated (heap Test.three) (Some 0) ∧
  ∃ b s', erase_after (mk_iterator (Some 0)) Test.three = Returns b s' ∧
          b = false.
Proof.
  pose proof reachable_three as Hr.
  assert (allocated (heap Test.three) (Some 0)) as Hp by compute_done.
  split; [done|]. split; [done|].
  destruct (erase_after_sequential Test.three (mk_iterator (Some 0)) Hr Hp)
    as (b & s' & Hrun & Hb).
  exists b, s'. split; [done|]. destruct b; [|done].
  destruct (proj1 Hb eq_refl) as (a & n & ? & ? & _ & Hn). by simplify_eq/=.
Defined.

(** X5.  For one thread the list is always a chain of valid positions that
    ends: in a reached state the nodes from the head form a list [l];
    [is_valid()] is true at each of them; [list_size] returns the length of
    [l] and the loop of validity checks passes, given more steps than
    nodes; and [begin().is_valid()] is the negation of [empty()]. *)
Theorem list_is_valid_chain {T} (s : state T) :
  reachable s →
  ∃ l, chain (heap s) (m_head s) l ∧
    (∀ a, a ∈ l → is_valid (mk_iterator (Some a)) s = Returns true s) ∧
    (∀ fuel, length l < fuel →
       list_size fuel s = Returns (length l) s ∧
       bind begin (λ first, all_valid fuel first end_) s = Returns true s) ∧
    ∃ b, empty s = Returns b s ∧ bind begin is_valid s = Returns (negb b) s.
Proof.
  intros Hs%reachable_sound. destruct (sound_chain _ Hs) as [l Hch].
  assert (∀ a, a ∈ l → unmarked (heap s) a) as Hun.
  { intros a. apply (sound_chain_unmarked s (m_head s)); [done..|].
    apply (sound_head _ Hs). }
  exists l. split_and!; [done| | |].
  - intros a Ha. by apply is_valid_unmarked, Hun.
  - intros fuel Hfuel. split; [by apply list_size_chain|].
    unfold begin, atomic_load_head, ret, bind.
    apply (all_valid_chain _ _ _ l); [done..|].
    intros a n Ha Hn. destruct (Hun a Ha) as (n' & ? & ?). by simplify_eq.
  - eexists. split; [reflexivity|].
    unfold begin, atomic_load_head, ret, bind.
    rewrite is_valid_closed_form.
    simpl. destruct (m_head s) as [a|] eqn:Hh; [|done].
    destruct (sound_head _ Hs a Hh) as (n & -> & ->). done.
Qed.

Lemma list_is_valid_chain_witness :
  reachable Test.three ∧ 3 < 4 ∧
  ∃ l, chain (heap Test.three) (m_head Test.three) l ∧
       list_size 4 Test.three = Returns (length l) Test.three.
Proof.
  pose proof reachable_three as Hr. assert (3 < 4) as Hlt by lia.
  split; [done|]. split; [done|].
  destruct (list_is_valid_chain Test.three Hr) as (l & Hch & _ & Hsz & _).
  exists l. split; [done|]. apply Hsz.
  by rewrite (chain_functional _ _ _ [2; 1; 0] Hch) by compute_done.
Defined.

(** X6.  [push_front(val); pop_front();] is a round trip on the list: given
    more attempts than the failures in a row, the pair returns with the
    head it started from, every node that was there unchanged and every
    chain the same list.  What is left behind is the node that was pushed,
    marked deleted, and its lock taken and released once, after the head
    was exchanged for that node and back. *)
Theorem push_then_pop {T} fuel (val : T) (s : state T) :
  longest_run (spurious s) < fuel →
  let fresh := length (heap s) in
  ∃ s', bind (push_front fuel val) (λ _, pop_front fuel) s = Returns tt s' ∧
    m_head s' = m_head s ∧
    (∀ b nb, heap s !! b = Some nb → heap s' !! b = Some nb) ∧
    heap s' !! fresh = Some (mk_node val true (m_head s)) ∧
    (∀ p l, chain (heap s) p l → chain (heap s') p l) ∧
    trace s' = trace s ++ [Exchange (m_head s) (Some fresh);
                            Exchange (Some fresh) (m_head s);
                            Acquire fresh; Release fresh].
Proof.
  intros Hfuel fresh. destruct s as [h hd tr o]. simpl in *.
  pose proof (spurious_run_le_longest o) as Hrun.
  pose proof (spurious_run_le_longest (settle o)) as Hrun'.
  pose proof (longest_run_settle o) as Hsettle.
  unfold bind. rewrite push_front_closed_form, decide_True by (simpl; lia).
  simpl.
  rewrite (pop_front_closed_form _ _ (length h) (mk_node val false hd)),
    decide_True by (simpl; try apply list_lookup_middle; done || lia).
  simpl. eexists. split; [done|]. simpl. split_and!; try done.
  - intros b nb Hb. rewrite list_lookup_alter_ne
      by (apply lookup_lt_Some in Hb; lia).
    by apply lookup_app_l_Some.
  - by rewrite list_lookup_alter_eq, list_lookup_middle.
  - intros p l Hch. eapply lseg_ext; [|exact Hch]. intros b Hb.
    pose proof (lseg_allocated _ _ _ _ _ Hch Hb).
    by rewrite list_lookup_alter_ne, lookup_app_l by lia.
  - by rewrite <- app_assoc.
Qed.

Lemma push_then_pop_witness :
  longest_run [true; false; true] < 2 ∧
  ∃ s', bind (push_front 2 9%Z) (λ _, pop_front 2)
          (set_spurious [true; false; true] Test.three) = Returns tt s' ∧
        m_head s' = Some 2 ∧ chain (heap s') (m_head s') [2; 1; 0].
Proof.
  assert (longest_run [true; false; true] < 2) as Hlong by (simpl; lia).
  split; [done|].
  destruct (push_then_pop 2 9%Z
              (set_spurious [true; false; true] Test.three) Hlong)
    as (s' & Hrun & Hh & _ & _ & Hch & _).
  exists s'. split; [done|]. split; [done|]. rewrite Hh.
  apply Hch. compute_done.
Defined.

(** X7.  [insert_after(pos, val); erase_after(pos);] is a round trip on the
    list: at an unmarked node both return true, and afterwards the head,
    every node that was there, the node of [pos] included, and every chain
    are as before.  What is left behind is the node that was inserted,
    marked deleted. *)
Theorem insert_then_erase {T} (val : T) (s : state T) pos a n :
  m_node_ptr pos = Some a → heap s !! a = Some n → m_deleted n = false →
  let fresh := length (heap s) in
  ∃ s1 s',
    insert_after pos val s = Returns true s1 ∧
    erase_after pos s1 = Returns true s' ∧
    m_head s' = m_head s ∧
    (∀ b nb, heap s !! b = Some nb → heap s' !! b = Some nb) ∧
    heap s' !! fresh = Some (mk_node val true (m_next n)) ∧
    (∀ p l, chain (heap s) p l → chain (heap s') p l).
Proof.
  intros Hpos Ha Hd fresh. pose proof (lookup_lt_Some _ _ _ Ha) as Hlt.
  rewrite (insert_after_closed_form pos val s a n Hpos Ha), Hd. simpl.
  do 2 eexists. split; [done|].
  rewrite (erase_after_closed_form pos _ a (with_next (Some fresh) n) fresh
             (mk_node val false (m_next n)));
    [|done| | |]; simpl.
  2:{ rewrite lookup_app_l by (by rewrite length_alter).
      by rewrite list_lookup_alter_eq, Ha. }
  2:{ done. }
  2:{ apply list_lookup_middle. by rewrite length_alter. }
  rewrite Hd, decide_False by (unfold fresh; lia). split; [done|]. simpl.
  assert (∀ b nb, heap s !! b = Some nb →
    alter (with_deleted true) fresh
      (alter (with_next (m_next n)) a
         (alter (with_next (Some fresh)) a (heap s)
            ++ [mk_node val false (m_next n)])) !! b = Some nb) as Hold.
  { intros b nb Hb. pose proof (lookup_lt_Some _ _ _ Hb) as Hltb.
    rewrite list_lookup_alter_ne by (unfold fresh; lia).
    destruct (decide (a = b)) as [<-|Hne].
    - assert (nb = n) as -> by congruence.
      rewrite list_lookup_alter_eq,
        lookup_app_l by (by rewrite length_alter).
      rewrite list_lookup_alter_eq, Ha. by destruct n.
    - rewrite list_lookup_alter_ne by done.
      rewrite lookup_app_l by (by rewrite length_alter).
      by rewrite list_lookup_alter_ne. }
  split_and!; try done.
  - rewrite list_lookup_alter_eq, list_lookup_alter_ne by (unfold fresh; lia).
    by rewrite list_lookup_middle by (by rewrite length_alter).
  - intros p l Hch. eapply lseg_ext; [|exact Hch]. intros b Hb.
    destruct (heap s !! b) as [nb|] eqn:Hnb.
    + match goal with
      | |- _ <$> ?x = _ =>
          replace x with (Some nb) by (symmetry; by apply Hold)
      end.
      done.
    + eapply lseg_allocated in Hb; [|done].
      apply lookup_ge_None in Hnb. lia.
Qed.

Lemma insert_then_erase_witness :
  m_node_ptr (mk_iterator (Some 1)) = Some 1 ∧
  heap Test.three !! 1 = Some (mk_node 2%Z false (Some 0)) ∧
  ∃ s1 s', insert_after (mk_iterator (Some 1)) 9%Z Test.three
             = Returns true s1 ∧
           erase_after (mk_iterator (Some 1)) s1 = Returns true s' ∧
           chain (heap s') (m_head s') [2; 1; 0].
Proof.
  split; [done|]. split; [done|].
  destruct (insert_then_erase 9%Z Test.three (mk_iterator (Some 1)) 1
              (mk_node 2%Z false (Some 0)) eq_refl eq_refl eq_refl)
    as (s1 & s' & Hi & He & Hh & _ & _ & Hch).
  exists s1, s'. split; [done|]. split; [done|]. rewrite Hh.
  apply Hch. compute_done.
Defined.

(** X8.  A position kept across [pop_front] is refused afterwards.  When
    the head node was unmarked and the attempts suffice, [pop_front]
    returns, and in the state it leaves an iterator to the node that was
    popped is not valid, [insert_after] through it returns false and
    leaves the head and every chain as they are, and [erase_after] through
    it returns false and leaves the head and the store as they are. *)
Theorem popped_position_is_refused {T} fuel (val : T) (s : state T) a n :
  spurious_run (spurious s) < fuel →
  m_head s = Some a → heap s !! a = Some n → m_deleted n = false →
  let it := mk_iterator (Some a) in
  ∃ s', pop_front fuel s = Returns tt s' ∧
    is_valid it s' = Returns false s' ∧
    (∃ s'', insert_after it val s' = Returns false s'' ∧
            m_head s'' = m_head s' ∧
            ∀ p l, chain (heap s') p l → chain (heap s'') p l) ∧
    (∃ s'', erase_after it s' = Returns false s'' ∧
            m_head s'' = m_head s' ∧ heap s'' = heap s').
Proof.
  intros Hfuel Hh Ha Hd it.
  rewrite (pop_front_closed_form fuel s a n Hh Ha), decide_True by done.
  simpl. rewrite Hd. eexists. split; [done|].
  set (s' := mk_state _ _ _ _).
  assert (heap s' !! a = Some (with_deleted true n)) as Ha'
    by (simpl; by rewrite list_lookup_alter_eq, Ha).
  split_and!.
  - rewrite is_valid_closed_form. unfold it. cbn [m_node_ptr].
    by rewrite Ha'.
  - rewrite (insert_after_closed_form it val s' a _ eq_refl Ha'). simpl.
    eexists. split; [done|]. split; [done|]. simpl.
    intros p l Hch. eapply lseg_ext; [|exact Hch]. intros b Hb.
    by rewrite lookup_app_l by (eapply lseg_allocated; eauto).
  - destruct (m_next n) as [d|] eqn:Hn.
    + destruct (heap s' !! d) as [nd|] eqn:Hdd.
      * rewrite (erase_after_closed_form it s' a _ d nd eq_refl Ha');
          [|done..]. simpl. by eexists.
      * rewrite (erase_after_dangling_successor it s' a _ d eq_refl Ha');
          [|done..]. simpl. by eexists.
    + rewrite (erase_after_last it s' a _ eq_refl Ha'); [|done].
      by eexists.
Qed.

Lemma popped_position_is_refused_witness :
  spurious_run [true] < 2 ∧ m_head Test.three = Some 2 ∧
  heap Test.three !! 2 = Some (mk_node 3%Z false (Some 1)) ∧
  ∃ s', pop_front 2 (set_spurious [true] Test.three) = Returns tt s' ∧
        is_valid (mk_iterator (Some 2)) s' = Returns false s' ∧
        ∃ s'', insert_after (mk_iterator (Some 2)) 9%Z s' = Returns false s''.
Proof.
  assert (spurious_run [true] < 2) as Hrun by (simpl; lia).
  split; [done|]. split; [done|]. split; [done|].
  destruct (popped_position_is_refused 2 9%Z (set_spurious [true] Test.three)
              2 (mk_node 3%Z false (Some 1)) Hrun eq_refl eq_refl eq_refl)
    as (s' & Hpop & Hv & (s'' & Hi & _) & _).
  exists s'. split; [done|]. split; [done|]. by exists s''.
Defined.

(** X9.  [clear] does not retire the positions into the list: through an
    iterator to an unmarked node, [insert_after] after [clear] still
    returns true and links the new node behind that node, but the value is
    not on the list, which stays empty: [empty()] is true and [list_size]
    is 0. *)
Theorem insert_after_clear_is_lost {T} fuel (val : T) (s : state T) pos a n :
  spurious_run (spurious s) < fuel →
  m_node_ptr pos = Some a → heap s !! a = Some n → m_deleted n = false →
  ∃ s', bind (clear fuel) (λ _, insert_after pos val) s = Returns true s' ∧
    heap s' !! a = Some (with_next (Some (length (heap s))) n) ∧
    heap s' !! length (heap s) = Some (mk_node val false (m_next n)) ∧
    m_head s' = None ∧ empty s' = Returns true s' ∧
    ∀ fuel', 0 < fuel' → list_size fuel' s' = Returns 0 s'.
Proof.
  intros Hfuel Hpos Ha Hd. pose proof (lookup_lt_Some _ _ _ Ha) as Hlt.
  destruct s as [h hd tr o]. simpl in *.
  unfold bind. rewrite clear_closed_form, decide_True by done.
  cbn [heap m_head trace spurious].
  rewrite (insert_after_closed_form pos val
             (mk_state h None _ (settle o)) a n Hpos Ha), Hd. simpl.
  eexists. split; [done|]. simpl. split_and!; try done.
  - rewrite lookup_app_l by (by rewrite length_alter).
    by rewrite list_lookup_alter_eq, Ha.
  - apply list_lookup_middle. by rewrite length_alter.
  - intros fuel' Hfuel'. by apply (list_size_chain _ _ []); [|simpl].
Qed.

Lemma insert_after_clear_is_lost_witness :
  spurious_run [true] < 2 ∧
  m_node_ptr (mk_iterator (Some 1)) = Some 1 ∧
  heap Test.three !! 1 = Some (mk_node 2%Z false (Some 0)) ∧
  ∃ s', bind (clear 2) (λ _, insert_after (mk_iterator (Some 1)) 9%Z)
          (set_spurious [true] Test.three) = Returns true s' ∧
        list_size 1 s' = Returns 0 s'.
Proof.
  assert (spurious_run [true] < 2) as Hrun by (simpl; lia).
  split; [done|]. split; [done|]. split; [done|].
  destruct (insert_after_clear_is_lost 2 9%Z (set_spurious [true] Test.three)
              (mk_iterator (Some 1)) 1 (mk_node 2%Z false (Some 0))
              Hrun eq_refl eq_refl eq_refl)
    as (s' & Hrun' & _ & _ & _ & _ & Hsz).
  exists s'. split; [done|]. apply Hsz. lia.
Defined.

(** X10.  What [push_front] puts in is what the front reads: given more
    attempts than the failures that come first, after [push_front(val)]
    the iterator [begin()] is valid, [*begin()] is [val], [empty()] is
    false, and one step from [begin()] is the [begin()] of before. *)
Theorem push_front_then_front {T} fuel (val : T) (s : state T) :
  spurious_run (spurious s) < fuel →
  ∃ s', push_front fuel val s = Returns tt s' ∧
    bind begin star s' = Returns val s' ∧
    bind begin is_valid s' = Returns true s' ∧
    empty s' = Returns false s' ∧
    bind begin incr s' = Returns (mk_iterator (m_head s)) s'.
Proof.
  intros Hfuel. rewrite push_front_closed_form, decide_True by done.
  eexists. split; [done|].
  unfold begin, atomic_load_head, ret, bind.
  rewrite star_closed_form, is_valid_closed_form, incr_closed_form. simpl.
  by rewrite list_lookup_middle.
Qed.

Lemma push_front_then_front_witness :
  spurious_run [true; true] < 3 ∧
  ∃ s', push_front 3 9%Z (set_spurious [true; true] Test.three)
          = Returns tt s' ∧
        bind begin star s' = Returns 9%Z s'.
Proof.
  assert (spurious_run [true; true] < 3) as Hrun by (simpl; lia).
  split; [done|].
  destruct (push_front_then_front 3 9%Z
              (set_spurious [true; true] Test.three) Hrun)
    as (s' & Hpush & Hstar & _).
  by exists s'.
Defined.

Section Loops.
Context {T : Type}.
Implicit Types (s : state T) (h : list (list_node T)) (n : list_node T).
Implicit Types (p q : pointer) (a b d e : addr) (l : list addr).
Implicit Types (vals : list T).

Lemma values_app h l1 l2 : values h (l1 ++ l2) = values h l1 ++ values h l2.
Proof. unfold values. apply omap_app. Qed.

(** One round of [read_each] at a node. *)
Lemma read_each_step s a n k :
  heap s !! a = Some n →
  read_each (mk_iterator (Some a)) (S k) s =
    bind (read_each (mk_iterator (m_next n)) k)
         (λ rest, ret (m_val n :: fst rest, snd rest)) s.
Proof.
  intros Ha. cbn [read_each]. unfold post_incr, bind at 1. unfold bind at 1.
  rewrite incr_closed_form. cbn [m_node_ptr]. rewrite Ha. unfold ret at 1.
  unfold bind at 1. rewrite star_closed_form. cbn [fst snd m_node_ptr].
  by rewrite Ha.
Qed.

(** [read_each] along a segment. *)
Lemma read_each_lseg s p l q :
  lseg (heap s) p l q →
  read_each (mk_iterator p) (length l) s
  = Returns (values (heap s) l, mk_iterator q) s.
Proof.
  revert p. induction l as [|a l IH]; intros p.
  - by intros ->.
  - intros (-> & n & Ha & Htl). cbn [length].
    rewrite (read_each_step s a n _ Ha), (values_cons _ _ n _ Ha).
    unfold bind. by rewrite (IH _ Htl).
Qed.

(** Pushing a sequence of values, whatever the marks are. *)
Lemma push_all_lifo fuel vals s l :
  longest_run (spurious s) < fuel →
  chain (heap s) (m_head s) l →
  ∃ s' l',
    push_all fuel vals s = Returns tt s' ∧
    chain (heap s') (m_head s') (l' ++ l) ∧ length l' = length vals ∧
    values (heap s') l' = rev vals ∧
    values (heap s') l = values (heap s) l.
Proof.
  revert s l. induction vals as [|v vals IH]; intros s l Hfuel Hch.
  - by exists s, [].
  - simpl. unfold bind. rewrite push_front_closed_form.
    pose proof (spurious_run_le_longest (spurious s)) as Hrun.
    rewrite decide_True by lia.
    pose proof (longest_run_settle (spurious s)) as Hsettle.
    edestruct (IH (mk_state (heap s ++ [mk_node v false (m_head s)])
                            (Some (length (heap s)))
                            (trace s ++ [Exchange (m_head s)
                                           (Some (length (heap s)))])
                            (settle (spurious s)))
                  (length (heap s) :: l))
      as (s' & l' & Hs' & Hch' & Hlen & Hval & Hold).
    { simpl. lia. }
    { by apply chain_push_front. }
    cbn [heap m_head trace spurious] in *.
    rewrite (values_push_front _ _ _ _ Hch) in Hold.
    pose proof Hch' as (q & _ & _ & n' & Hn' & _)%lseg_app.
    rewrite (values_cons _ _ n' _ Hn') in Hold. injection Hold as Hv Hold.
    exists s', (l' ++ [length (heap s)]).
    replace ((l' ++ [length (heap s)]) ++ l)
      with (l' ++ length (heap s) :: l) by (by rewrite <- app_assoc).
    split_and!; try done.
    + rewrite length_app. simpl. lia.
    + by rewrite values_app, Hval, (values_cons _ _ n' _ Hn'), Hv.
Qed.

End Loops.

(** X11.  Reading with [*beg++] follows the list: from a position whose
    chain is [l], as many rounds as [l] has nodes read the values of [l] in
    order and arrive at the end position; one round more goes through the
    empty pointer, for neither [operator++] nor [operator*] looks at the
    pointer first. *)
Theorem read_each_reads_the_chain {T} (s : state T) p l :
  chain (heap s) p l →
  read_each (mk_iterator p) (length l) s
    = Returns (values (heap s) l, end_) s ∧
  read_each (mk_iterator p) (S (length l)) s = Undefined null_dereference.
Proof.
  intros Hch. split; [by apply read_each_lseg|].
  revert p Hch. induction l as [|a l IH]; intros p Hch.
  - by rewrite Hch.
  - destruct Hch as (-> & n & Ha & Htl). cbn [length].
    rewrite (read_each_step s a n _ Ha). unfold bind.
    by rewrite (IH _ Htl).
Qed.

Lemma read_each_reads_the_chain_witness :
  chain (heap Test.three) (m_head Test.three) [2; 1; 0] ∧
  read_each (mk_iterator (Some 2)) 3 Test.three
    = Returns ([3; 2; 1]%Z, end_) Test.three ∧
  read_each (mk_iterator (Some 2)) 4 Test.three = Undefined null_dereference.
Proof.
  assert (chain (heap Test.three) (m_head Test.three) [2; 1; 0]) as Hch
    by compute_done.
  split; [done|].
  exact (read_each_reads_the_chain Test.three (Some 2) [2; 1; 0] Hch).
Defined.

(** X12.  The list is last in, first out: [push_front] of the values
    [vals] one after the other, given more attempts than the failures in a
    row, puts as many nodes in front of the list as there are values; the
    list then reads [vals] reversed, followed by what it read before, and
    [*beg++] from [begin()] reads [vals] reversed. *)
Theorem push_all_then_read {T} fuel (vals : list T) (s : state T) l :
  longest_run (spurious s) < fuel →
  chain (heap s) (m_head s) l →
  ∃ s' l',
    push_all fuel vals s = Returns tt s' ∧
    chain (heap s') (m_head s') (l' ++ l) ∧ length l' = length vals ∧
    values (heap s') (l' ++ l) = rev vals ++ values (heap s) l ∧
    ∃ it, bind begin (λ beg, read_each beg (length vals)) s'
            = Returns (rev vals, it) s'.
Proof.
  intros Hfuel Hch.
  destruct (push_all_lifo fuel vals s l Hfuel Hch)
    as (s' & l' & Hpush & Hch' & Hlen & Hval & Hold).
  exists s', l'. split_and!; try done.
  - by rewrite values_app, Hval, Hold.
  - apply lseg_app in Hch' as (q & Hseg & Htl).
    exists (mk_iterator q). unfold begin, atomic_load_head, ret, bind.
    by rewrite <- Hlen, (read_each_lseg s' _ l' q Hseg), Hval.
Qed.

Lemma push_all_then_read_witness :
  longest_run [true; false; true] < 2 ∧
  chain (heap Test.three) (m_head Test.three) [2; 1; 0] ∧
  ∃ s' it, push_all 2 [7; 8]%Z (set_spurious [true; false; true] Test.three)
             = Returns tt s' ∧
           bind begin (λ beg, read_each beg 2) s' = Returns ([8; 7]%Z, it) s'.
Proof.
  assert (longest_run [true; false; true] < 2) as Hlong by (simpl; lia).
  assert (chain (heap Test.three) (m_head Test.three) [2; 1; 0]) as Hch
    by compute_done.
  split; [done|]. split; [done|].
  destruct (push_all_then_read 2 [7; 8]%Z
              (set_spurious [true; false; true] Test.three) [2; 1; 0]
              Hlong Hch)
    as (s' & l' & Hpush & _ & _ & _ & it & Hread).
  by exists s', it.
Defined.

Section InsertErase.
Context {T : Type}.
Implicit Types (s : state T) (h : list (list_node T)) (n : list_node T).
Implicit Types (p q : pointer) (a b d e : addr) (l : list addr).
Implicit Types (vals : list T).

(** The loop of insertions behind an advancing position. *)
Lemma insert_each_chain vals s a n p l1 l2 :
  heap s !! a = Some n → m_deleted n = false →
  chain (heap s) p (l1 ++ a :: l2) →
  ∃ s' l' e,
    insert_each (mk_iterator (Some a)) vals s
      = Returns (true, mk_iterator (Some e)) s' ∧
    last (a :: l') = Some e ∧
    chain (heap s') p (l1 ++ a :: l' ++ l2) ∧
    values (heap s') l' = vals ∧
    m_head s' = m_head s ∧
    (∀ b nb, heap s !! b = Some nb →
       ∃ nb', heap s' !! b = Some nb' ∧ m_val nb' = m_val nb ∧
              m_deleted nb' = m_deleted nb) ∧
    length l' = length vals ∧
    (∀ b, b ∈ l' → unmarked (heap s') b).
Proof.
  revert s a n l1. induction vals as [|v vals IH]; intros s a n l1 Ha Hd Hch.
  - exists s, [], a. split_and!; try done.
    + intros b nb Hb. by exists nb.
    + intros b Hb. by apply elem_of_nil in Hb.
  - pose proof (lookup_lt_Some _ _ _ Ha) as Hlt.
    cbn [insert_each]. unfold bind at 1.
    rewrite (insert_after_closed_form (mk_iterator (Some a)) v s a n
               eq_refl Ha), Hd.
    cbn zeta iota beta. cbn [fst snd]. unfold bind at 1.
    set (s1 := mk_state _ _ _ _).
    assert (heap s1 !! a = Some (with_next (Some (length (heap s))) n))
      as Ha1.
    { simpl. rewrite lookup_app_l by (by rewrite length_alter).
      by rewrite list_lookup_alter_eq, Ha. }
    assert (heap s1 !! length (heap s) = Some (mk_node v false (m_next n)))
      as Hf1.
    { simpl. apply list_lookup_middle. by rewrite length_alter. }
    rewrite incr_closed_form. cbn [m_node_ptr]. rewrite Ha1. cbn [with_next m_next].
    destruct (IH s1 (length (heap s)) _ (l1 ++ [a]) Hf1 eq_refl)
      as (s' & l' & e & Hrun & Hlast & Hch' & Hval & Hh & Hold & Hlen & Hun).
    { rewrite <- app_assoc. by apply chain_insert_after. }
    rewrite Hrun. rewrite <- app_assoc in Hch'.
    destruct (Hold _ _ Hf1) as (nf & Hnf & Hvf & Hdf).
    exists s', (length (heap s) :: l'), e. split_and!; try done.
    + by rewrite (values_cons _ _ nf _ Hnf), Hvf, Hval.
    + intros b nb Hb. pose proof (lookup_lt_Some _ _ _ Hb) as Hltb.
      destruct (decide (a = b)) as [<-|Hne].
      * destruct (Hold _ _ Ha1) as (nb' & ? & ? & ?). simplify_eq.
        by exists nb'.
      * apply Hold. simpl.
        rewrite lookup_app_l by (by rewrite length_alter).
        by rewrite list_lookup_alter_ne.
    + simpl. by rewrite Hlen.
    + intros b [->|Hb]%elem_of_cons; [by exists nf | by apply Hun].
Qed.

(** The loop of erasures behind a fixed position. *)
Lemma erase_each_chain l2 s a n p l1 l3 :
  heap s !! a = Some n → m_deleted n = false →
  chain (heap s) p (l1 ++ a :: l2 ++ l3) →
  (∀ b, b ∈ l2 → unmarked (heap s) b) →
  ∃ s',
    erase_each (mk_iterator (Some a)) (length l2) s = Returns true s' ∧
    chain (heap s') p (l1 ++ a :: l3) ∧
    m_head s' = m_head s ∧
    (∃ n', heap s' !! a = Some n' ∧ m_deleted n' = false ∧
           m_val n' = m_val n) ∧
    (∀ b, b ∈ l2 → tombstoned b s') ∧
    (∀ b, tombstoned b s → tombstoned b s') ∧
    (∀ b nb, heap s !! b = Some nb → b ≠ a → b ∉ l2 →
             heap s' !! b = Some nb).
Proof.
  revert s n. induction l2 as [|d l2 IH]; intros s n Ha Hd Hch Hun.
  - exists s. split_and!; try done.
    + by exists n.
    + intros b Hb. by apply elem_of_nil in Hb.
  - pose proof (chain_NoDup _ _ _ Hch) as Hnd.
    apply NoDup_app in Hnd as (_ & _ & [Hal [Hdl _]%NoDup_cons]%NoDup_cons).
    assert (a ≠ d) as Hne by (intros ->; apply Hal; by left).
    pose proof Hch as (q & _ & _ & n' & Hn' & _ & nd & Hnd & _)%lseg_app.
    assert (n' = n) as -> by congruence.
    assert (m_next n = Some d) as Hn.
    { apply lseg_app in Hch as (q' & _ & _ & n'' & Hn'' & Hq & _).
      by simplify_eq. }
    assert (m_deleted nd = false) as Hdd.
    { destruct (Hun d) as (nd' & ? & ?); [by left|]. by simplify_eq. }
    cbn [length erase_each]. unfold bind at 1.
    rewrite (erase_after_closed_form (mk_iterator (Some a)) s a n d nd
               eq_refl Ha Hn Hnd), Hd, decide_False by congruence.
    cbn zeta. rewrite Hdd. cbn iota beta.
    set (s1 := mk_state _ _ _ _).
    assert (heap s1 !! a = Some (with_next (m_next nd) n)) as Ha1.
    { simpl. rewrite list_lookup_alter_ne by done.
      by rewrite list_lookup_alter_eq, Ha. }
    assert (∀ b nb, heap s !! b = Some nb → b ≠ a → b ≠ d →
                    heap s1 !! b = Some nb) as Hsame.
    { intros b nb Hb ? ?. simpl. by rewrite !list_lookup_alter_ne. }
    assert (∀ b, tombstoned b s → tombstoned b s1) as Hmono.
    { intros b Hb.
      change (tombstoned b
                (set_heap (alter (with_deleted true) d)
                   (set_heap (alter (with_next (m_next nd)) a) s))).
      by do 2 (apply tombstoned_alter; [done|]). }
    destruct (IH s1 (with_next (m_next nd) n) Ha1 Hd)
      as (s' & Hrun & Hch' & Hh & Hua & Hts & Hmono' & Hsame').
    { by apply (chain_erase_after _ _ _ _ _ _ _ Hnd Hch). }
    { intros b Hb. destruct (Hun b) as (nb & Hnb & Hdb); [by right|].
      exists nb. split; [|done]. apply Hsame; [done| |].
      - intros ->. apply Hal. right. apply elem_of_app. by left.
      - intros ->. apply Hdl. apply elem_of_app. by left. }
    exists s'. split_and!; try done.
    + intros b [->|Hb]%elem_of_cons; [|by apply Hts].
      apply Hmono'. exists (with_deleted true nd). split; [|done].
      simpl. rewrite list_lookup_alter_eq, list_lookup_alter_ne by done.
      by rewrite Hnd.
    + intros b Hb. by apply Hmono', Hmono.
    + intros b nb Hb Hba Hbl. apply Hsame'; [|done|].
      * apply Hsame; [done..|]. intros ->. apply Hbl. by left.
      * intros Hin. apply Hbl. by right.
Qed.

End InsertErase.

(** X13.  The loop of [main] that inserts behind an advancing position
    puts the values in order: from an unmarked node [a] of a chain,
    [insert_after(beg, v); ++beg;] for each [v] of [vals] never fails, ends
    with [beg] at the last node inserted, and links the new nodes, holding
    [vals] in order, between [a] and what followed it; the head and the
    values and marks of the nodes that were there are as before. *)
Theorem insert_each_appends {T} (vals : list T) (s : state T) a n p l1 l2 :
  heap s !! a = Some n → m_deleted n = false →
  chain (heap s) p (l1 ++ a :: l2) →
  ∃ s' l' e,
    insert_each (mk_iterator (Some a)) vals s
      = Returns (true, mk_iterator (Some e)) s' ∧
    last (a :: l') = Some e ∧
    chain (heap s') p (l1 ++ a :: l' ++ l2) ∧
    values (heap s') l' = vals ∧
    values (heap s') (l1 ++ a :: l2) = values (heap s) (l1 ++ a :: l2) ∧
    m_head s' = m_head s.
Proof.
  intros Ha Hd Hch.
  destruct (insert_each_chain vals s a n p l1 l2 Ha Hd Hch)
    as (s' & l' & e & Hrun & Hlast & Hch' & Hval & Hh & Hold & _ & _).
  exists s', l', e. split_and!; try done.
  apply values_ext. intros b Hb.
  destruct (heap s !! b) as [nb|] eqn:Hnb.
  - destruct (Hold b nb Hnb) as (nb' & -> & Hv & _). simpl. by rewrite Hv.
  - eapply lseg_allocated in Hb; [|done].
    apply lookup_ge_None in Hnb. lia.
Qed.

Lemma insert_each_appends_witness :
  heap Test.three !! 0 = Some (mk_node 1%Z false None) ∧
  chain (heap Test.three) (m_head Test.three) [2; 1; 0] ∧
  ∃ s' l' e, insert_each (mk_iterator (Some 0)) [7; 8]%Z Test.three
               = Returns (true, mk_iterator (Some e)) s' ∧
             chain (heap s') (m_head s') ([2; 1] ++ 0 :: l' ++ []) ∧
             values (heap s') l' = [7; 8]%Z.
Proof.
  assert (chain (heap Test.three) (m_head Test.three) ([2; 1] ++ 0 :: []))
    as Hch by compute_done.
  split; [done|]. split; [done|].
  destruct (insert_each_appends [7; 8]%Z Test.three 0
              (mk_node 1%Z false None) (m_head Test.three) [2; 1] []
              eq_refl eq_refl Hch)
    as (s' & l' & e & Hrun & _ & Hch' & Hval & _ & Hh).
  exists s', l', e. split; [done|]. split; [|done]. by rewrite Hh.
Defined.

(** X14.  The loop of [main] that erases behind a fixed position empties
    what follows it: from an unmarked node [a] of a chain, followed by the
    unmarked nodes [l2], as many [erase_after(beg)] as [l2] has nodes all
    return true; they unlink exactly [l2], mark each of its nodes deleted,
    and leave [a] unmarked and every other node as it was.  If nothing
    followed [l2], one more [erase_after(beg)] returns false and changes
    nothing. *)
Theorem erase_each_removes {T} (s : state T) a n p l1 l2 l3 :
  heap s !! a = Some n → m_deleted n = false →
  chain (heap s) p (l1 ++ a :: l2 ++ l3) →
  (∀ b, b ∈ l2 → unmarked (heap s) b) →
  ∃ s',
    erase_each (mk_iterator (Some a)) (length l2) s = Returns true s' ∧
    chain (heap s') p (l1 ++ a :: l3) ∧
    m_head s' = m_head s ∧
    unmarked (heap s') a ∧
    (∀ b, b ∈ l2 → tombstoned b s') ∧
    (∀ b nb, heap s !! b = Some nb → b ≠ a → b ∉ l2 →
             heap s' !! b = Some nb) ∧
    (l3 = [] → erase_after (mk_iterator (Some a)) s' = Returns false s').
Proof.
  intros Ha Hd Hch Hun.
  destruct (erase_each_chain l2 s a n p l1 l3 Ha Hd Hch Hun)
    as (s' & Hrun & Hch' & Hh & (n' & Hn' & Hd' & _) & Hts & _ & Hsame).
  exists s'. split_and!; try done; [by exists n'|].
  intros ->. clear dependent n'. apply lseg_app in Hch' as (q & _ & _ & n' & Hn' & Hend).
  by apply (erase_after_last _ _ a n').
Qed.

Lemma erase_each_removes_witness :
  heap Test.three !! 2 = Some (mk_node 3%Z false (Some 1)) ∧
  chain (heap Test.three) (m_head Test.three) [2; 1; 0] ∧
  (∀ b, b ∈ [1; 0] → unmarked (heap Test.three) b) ∧
  ∃ s', erase_each (mk_iterator (Some 2)) 2 Test.three = Returns true s' ∧
        chain (heap s') (m_head s') [2] ∧
        erase_after (mk_iterator (Some 2)) s' = Returns false s'.
Proof.
  assert (chain (heap Test.three) (m_head Test.three)
            ([] ++ 2 :: [1; 0] ++ [])) as Hch by compute_done.
  assert (∀ b, b ∈ [1; 0] → unmarked (heap Test.three) b) as Hun.
  { intros b [->|[->|Hb%elem_of_nil]%elem_of_cons]%elem_of_cons;
      [by eexists..|done]. }
  split; [done|]. split; [done|]. split; [done|].
  destruct (erase_each_removes Test.three 2 (mk_node 3%Z false (Some 1))
              (m_head Test.three) [] [1; 0] [] eq_refl eq_refl Hch Hun)
    as (s' & Hrun & Hch' & Hh & _ & _ & _ & Hlast).
  exists s'. split; [done|]. split; [by rewrite Hh|]. by apply Hlast.
Defined.

(** X15.  Locks are scoped and ordered, operation by operation.  Whether
    it returns or throws, an operation has released every lock it acquired,
    the last one acquired first, has acquired no lock it held, and has held
    none while it exchanged the head.  What it has done is, in this order:
    [push_front] and [clear], one exchange of the head and no lock;
    [pop_front], the exchange of the head [a] for its successor, then the
    lock of [a] acquired and released; [insert_after], the lock of the node
    of its position acquired and released; [erase_after], nothing at the
    end position or at a node without successor, the lock of the node [a]
    of its position acquired and released when that node is marked, and
    otherwise the lock of [a] and then that of its successor [d], another
    node, acquired, and released in the reverse order; the iterator
    operations and [empty], nothing. *)
Theorem locks_are_scoped {T} (op : operation T) (s : state T) evs :
  closed s → allocated (heap s) (position op) →
  events s (run op s) = Some evs →
  held_after [] evs = Some [] ∧
  match op with
  | op_push_front _ _ =>
      evs = [Exchange (m_head s) (Some (length (heap s)))]
  | op_clear _ => evs = [Exchange (m_head s) None]
  | op_pop_front _ =>
      ∃ a n, m_head s = Some a ∧ heap s !! a = Some n ∧
             evs = [Exchange (Some a) (m_next n); Acquire a; Release a]
  | op_insert_after pos _ =>
      ∃ a, m_node_ptr pos = Some a ∧ evs = [Acquire a; Release a]
  | op_erase_after pos =>
      ((m_node_ptr pos = None ∨
        ∃ a n, m_node_ptr pos = Some a ∧ heap s !! a = Some n ∧
               m_next n = None) ∧
       evs = []) ∨
      ∃ a n d,
        m_node_ptr pos = Some a ∧ heap s !! a = Some n ∧
        m_next n = Some d ∧
        if m_deleted n then evs = [Acquire a; Release a]
        else d ≠ a ∧ evs = [Acquire a; Acquire d; Release d; Release a]
  | _ => evs = []
  end.
Proof.
  intros Hc Hp.
  assert (∀ a, held_after [] [Acquire a; Release a] = Some []) as Hone
    by (intros a; simpl; by rewrite decide_True).
  assert (∀ a d, d ≠ a →
            held_after [] [Acquire a; Acquire d; Release d; Release a]
            = Some []) as Htwo.
  { intros a d Hne. simpl.
    rewrite (decide_False (P := d ∈ [a]))
      by (by intros ?%list_elem_of_singleton).
    by rewrite !decide_True. }
  assert (∀ A (x : A), events s (Returns x s) = Some evs →
            held_after [] evs = Some [] ∧ evs = []) as Hread.
  { intros A x. rewrite events_same_trace by done. by intros [= <-]. }
  destruct s as [h hd tr o].
  destruct op as [fuel val|fuel|fuel|pos val|pos| | |it|it|it val|it];
    simpl in Hp; simpl run.
  - rewrite push_front_closed_form. case_decide; [|done].
    erewrite events_longer_trace by reflexivity. by intros [= <-].
  - destruct hd as [a|];
      [|destruct fuel; [done | by rewrite pop_front_empty]].
    destruct (allocated_lookup h a (proj1 Hc)) as [n Ha].
    rewrite (pop_front_closed_form _ _ a n) by done.
    case_decide; [|done]. cbn [heap m_head trace spurious]. intros Hev.
    assert (evs = [Exchange (Some a) (m_next n); Acquire a; Release a]) as ->.
    { destruct (m_deleted n); unfold events in Hev; simpl in Hev;
        rewrite drop_app_length in Hev; by injection Hev as <-. }
    split; [simpl; by rewrite decide_True | by exists a, n].
  - rewrite clear_closed_form. case_decide; [|done].
    erewrite events_longer_trace by reflexivity. by intros [= <-].
  - unfold forget, bind.
    destruct (m_node_ptr pos) as [a|] eqn:Hpos;
      [|by rewrite insert_after_end].
    destruct (allocated_lookup h a Hp) as [n Ha].
    rewrite (insert_after_closed_form pos val _ a n) by done.
    cbn [heap m_head trace spurious]. intros Hev.
    assert (evs = [Acquire a; Release a]) as ->.
    { destruct (m_deleted n); unfold events in Hev; simpl in Hev;
        rewrite drop_app_length in Hev; by injection Hev as <-. }
    split; [done|]. by exists a.
  - unfold forget, bind.
    destruct (erase_after_cases _ pos Hc Hp)
      as [[Hpos Hr] | [(a & n & Hpos & Ha & Hn & Hr)
                      | (a & n & d & nd & Hpos & Ha & Hn & Hd & Hr)]];
      rewrite Hr.
    + intros [? ->]%Hread. split; [done|]. left. split; [by left|done].
    + intros [? ->]%Hread. split; [done|]. left. split; [|done].
      right. by exists a, n.
    + cbn [heap m_head trace spurious] in *. intros Hev.
      destruct (m_deleted n) eqn:Hdn.
      * assert (evs = [Acquire a; Release a]) as ->.
        { unfold events in Hev; simpl in Hev.
          rewrite drop_app_length in Hev. by injection Hev as <-. }
        split; [done|]. right. exists a, n, d. by rewrite Hdn.
      * case_decide as Hne; [done|].
        assert (evs = [Acquire a; Acquire d; Release d; Release a]) as ->.
        { destruct (m_deleted nd); unfold events in Hev; simpl in Hev;
            rewrite drop_app_length in Hev; by injection Hev as <-. }
        split; [by apply Htwo|]. right. exists a, n, d. by rewrite Hdn.
  - by intros [? ->]%Hread.
  - by intros [? ->]%Hread.
  - unfold forget, bind. rewrite is_valid_closed_form.
    cbn [heap m_head trace spurious].
    destruct (m_node_ptr it) as [a|]; [|by intros [? ->]%Hread].
    destruct (h !! a); [|done]. by intros [? ->]%Hread.
  - unfold forget, bind. rewrite star_closed_form.
    cbn [heap m_head trace spurious].
    destruct (m_node_ptr it) as [a|]; [|done].
    destruct (h !! a); [|done]. by intros [? ->]%Hread.
  - rewrite assign_closed_form. cbn [heap m_head trace spurious].
    destruct (m_node_ptr it) as [a|]; [|done].
    destruct (h !! a); [|done].
    rewrite events_same_trace by done. by intros [= <-].
  - unfold forget, bind. rewrite incr_closed_form.
    cbn [heap m_head trace spurious].
    destruct (m_node_ptr it) as [a|]; [|done].
    destruct (h !! a); [|done]. by intros [? ->]%Hread.
Qed.

Lemma locks_are_scoped_witness :
  closed Test.three ∧
  allocated (heap Test.three)
    (position (op_erase_after (T := Z) (mk_iterator (Some 2)))) ∧
  events Test.three (run (op_erase_after (mk_iterator (Some 2))) Test.three)
    = Some [Acquire 2; Acquire 1; Release 1; Release 2] ∧
  held_after [] [Acquire 2; Acquire 1; Release 1; Release 2] = Some [].
Proof.
  assert (closed Test.three) as Hc by compute_done.
  split; [done|]. split; [compute_done|]. split; [reflexivity|].
  apply (locks_are_scoped (op_erase_after (mk_iterator (Some 2))) Test.three);
    [done | compute_done | reflexivity].
Defined.

(** X16.  The two loops of [main] undo each other: from an unmarked node
    [a] of a chain, inserting the values [vals] behind an advancing
    position and then erasing as many times behind [a] brings every chain
    through [a] back to the list it was, with the values it had; both loops
    run without a failure. *)
Theorem insert_each_then_erase_each {T} (vals : list T) (s : state T)
    a n p l1 l2 :
  heap s !! a = Some n → m_deleted n = false →
  chain (heap s) p (l1 ++ a :: l2) →
  ∃ s1 e s',
    insert_each (mk_iterator (Some a)) vals s = Returns (true, e) s1 ∧
    erase_each (mk_iterator (Some a)) (length vals) s1 = Returns true s' ∧
    chain (heap s') p (l1 ++ a :: l2) ∧
    values (heap s') (l1 ++ a :: l2) = values (heap s) (l1 ++ a :: l2) ∧
    m_head s' = m_head s.
Proof.
  intros Ha Hd Hch.
  destruct (insert_each_chain vals s a n p l1 l2 Ha Hd Hch)
    as (s1 & l' & e & Hins & _ & Hch1 & _ & Hh1 & Hold & Hlen & Hun).
  destruct (Hold a n Ha) as (n1 & Ha1 & Hv1 & Hd1). rewrite Hd in Hd1.
  destruct (erase_each_chain l' s1 a n1 p l1 l2 Ha1 Hd1 Hch1 Hun)
    as (s' & Hera & Hch' & Hh' & (n' & Hn' & _ & Hv') & _ & _ & Hsame).
  exists s1, (mk_iterator (Some e)), s'. rewrite <- Hlen.
  split_and!; try done; [|congruence].
  pose proof (chain_NoDup _ _ _ Hch1) as Hnd.
  apply values_ext. intros b Hb.
  destruct (heap s !! b) as [nb|] eqn:Hnb;
    [|pose proof (lseg_allocated _ _ _ _ _ Hch Hb);
      apply lookup_ge_None in Hnb; lia].
  destruct (decide (b = a)) as [->|Hne].
  - simplify_eq. rewrite Hn'. simpl. congruence.
  - destruct (Hold b nb Hnb) as (nb1 & Hb1 & Hvb & _).
    rewrite (Hsame b nb1 Hb1 Hne); [simpl; by rewrite Hvb|].
    intros Hin. apply NoDup_app in Hnd as (_ & Hl1 & [_ Hnd]%NoDup_cons).
    apply elem_of_app in Hb as [Hb|[->|Hb]%elem_of_cons]; [|done|].
    + apply (Hl1 b Hb). right. apply elem_of_app. by left.
    + apply NoDup_app in Hnd as (_ & Hl' & _). by apply (Hl' b Hin).
Qed.

Lemma insert_each_then_erase_each_witness :
  heap Test.three !! 1 = Some (mk_node 2%Z false (Some 0)) ∧
  chain (heap Test.three) (m_head Test.three) [2; 1; 0] ∧
  ∃ s1 e s',
    insert_each (mk_iterator (Some 1)) [7; 8]%Z Test.three
      = Returns (true, e) s1 ∧
    erase_each (mk_iterator (Some 1)) 2 s1 = Returns true s' ∧
    chain (heap s') (m_head s') [2; 1; 0] ∧
    values (heap s') [2; 1; 0] = [3; 2; 1]%Z.
Proof.
  assert (chain (heap Test.three) (m_head Test.three) ([2] ++ 1 :: [0]))
    as Hch by compute_done.
  split; [done|]. split; [done|].
  destruct (insert_each_then_erase_each [7; 8]%Z Test.three 1
              (mk_node 2%Z false (Some 0)) (m_head Test.three) [2] [0]
              eq_refl eq_refl Hch)
    as (s1 & e & s' & Hins & Hera & Hch' & Hval & Hh).
  exists s1, e, s'. split; [done|]. split; [done|].
  split; [by rewrite Hh | exact Hval].
Defined.

(** X17.  Writing through an iterator is a round trip on the value and
    touches nothing else: after an assignment through [*it], [*it] reads
    the value assigned; the head, every other node, the mark and the
    successor of the node, and so the validity of every iterator and every
    chain, are as before.  This holds at a marked node as well. *)
Theorem assign_then_star {T} it (val : T) (s : state T) a n :
  m_node_ptr it = Some a → heap s !! a = Some n →
  ∃ s', assign it val s = Returns tt s' ∧
    star it s' = Returns val s' ∧
    heap s' !! a = Some (mk_node val (m_deleted n) (m_next n)) ∧
    m_head s' = m_head s ∧
    (∀ b nb, b ≠ a → heap s !! b = Some nb → heap s' !! b = Some nb) ∧
    (∀ it' b, is_valid it' s = Returns b s → is_valid it' s' = Returns b s') ∧
    (∀ p l, chain (heap s) p l → chain (heap s') p l).
Proof.
  intros Hit Ha. rewrite assign_closed_form, Hit, Ha.
  eexists. split; [done|].
  assert (alter (with_val val) a (heap s) !! a
          = Some (mk_node val (m_deleted n) (m_next n))) as Ha'
    by (by rewrite list_lookup_alter_eq, Ha).
  split_and!; try done.
  - rewrite star_closed_form, Hit. simpl. by rewrite Ha'.
  - intros b nb Hne Hb. simpl. by rewrite list_lookup_alter_ne.
  - intros it' b. rewrite !is_valid_closed_form. simpl.
    destruct (m_node_ptr it') as [c|]; [|by intros [= <-]].
    destruct (decide (a = c)) as [<-|Hne].
    + rewrite Ha', Ha. by intros [= <-].
    + rewrite list_lookup_alter_ne by done.
      destruct (heap s !! c); [|done]. by intros [= <-].
  - intros p l Hch. eapply lseg_ext; [|exact Hch]. intros b Hb. simpl.
    destruct (decide (a = b)) as [<-|Hne].
    + by rewrite Ha', Ha.
    + by rewrite list_lookup_alter_ne.
Qed.

Lemma assign_then_star_witness :
  m_node_ptr (mk_iterator (Some 2)) = Some 2 ∧
  heap Test.three_popped !! 2 = Some (mk_node 3%Z true (Some 1)) ∧
  ∃ s', assign (mk_iterator (Some 2)) 9%Z Test.three_popped = Returns tt s' ∧
        star (mk_iterator (Some 2)) s' = Returns 9%Z s' ∧
        chain (heap s') (m_head s') [1; 0].
Proof.
  split; [done|]. split; [done|].
  destruct (assign_then_star (mk_iterator (Some 2)) 9%Z Test.three_popped 2
              (mk_node 3%Z true (Some 1)) eq_refl eq_refl)
    as (s' & Hrun & Hstar & _ & Hh & _ & _ & Hch).
  exists s'. split; [done|]. split; [done|]. rewrite Hh.
  apply Hch. compute_done.
Defined.

(** X18.  One thread never makes the list loop.  In a state reached from a
    default-constructed list, following the successors from any node of
    the store comes to the end, so no node is its own successor, and no
    operation at a position that refers to a node locks a mutex it
    holds. *)
Theorem no_node_reaches_itself {T} (s : state T) :
  reachable s →
  acyclic (heap s) ∧
  (∀ a n, heap s !! a = Some n → m_next n ≠ Some a) ∧
  (∀ op, allocated (heap s) (position op) →
         run op s ≠ Undefined recursive_lock).
Proof.
  intros Hre. destruct (reachable_acyclic s Hre) as [_ Hac].
  split_and!; [done| |].
  - intros a n. by apply acyclic_no_self_loop.
  - intros op Hp.
    destruct (run_sound op s (reachable_sound s Hre) Hac Hp)
      as [(s' & Hrun & _)|[Hrun|Hrun]]; by rewrite Hrun.
Qed.

Lemma no_node_reaches_itself_witness :
  reachable Test.three ∧ acyclic (heap Test.three) ∧
  erase_after (mk_iterator (Some 2)) Test.three ≠ Undefined recursive_lock.
Proof.
  pose proof reachable_three as Hr.
  destruct (no_node_reaches_itself Test.three Hr) as (Hac & _ & Hrun).
  split; [done|]. split; [done|]. intros Heq.
  apply (Hrun (op_erase_after (mk_iterator (Some 2)))); [compute_done|].
  simpl. unfold forget, bind. by rewrite Heq.
Defined.
